(** * The ECOS conic-solver interface of CVXPY

    A shallow embedding of [cvxpy/reductions/solvers/conic_solvers/ecos_conif.py]:
    the class-level tables of [ECOS], the forward transform [apply], the
    call [solve_via_data] and the inverse transform [invert].

    Python dictionaries with a fixed key set ([data], [inv_data], the raw
    result of [ecos.solve]) are records; dictionaries keyed by identifiers
    (primal and dual values, the attributes of a solution, the status
    table) are finite maps.  Python floats and [numpy.float64] are IEEE
    binary64 numbers, modelled by the primitive floats.  A raised
    exception is the [Raise] case of [result]. *)

From Stdlib Require Import ZArith Floats.
From stdpp Require Import gmap strings list fin_maps.

Open Scope Z_scope.

(** ** Exceptions and results *)

Inductive exn : Type :=
  | KeyError (key : Z)      (* d[k] with k not a key of d *)
  | IndexError              (* l[0] on an empty sequence *)
  | TypeError               (* a keyword argument given twice *)
  | UnsupportedConstraint   (* raised by constraint grouping *)
  | ExtractionError.        (* a failure of coefficient extraction *)

Inductive result (A : Type) : Type :=
  | Ok (a : A)
  | Raise (e : exn).
Arguments Ok {A} a.
Arguments Raise {A} e.

#[export] Instance result_ret : MRet result := fun A a => Ok a.
#[export] Instance result_bind : MBind result := fun A B f m =>
  match m with
  | Ok a => f a
  | Raise e => Raise e
  end.
#[export] Instance result_fmap : FMap result := fun A B f m =>
  match m with
  | Ok a => Ok (f a)
  | Raise e => Raise e
  end.

(** [l[0]] *)
Definition index0 {A : Type} (l : list A) : result A :=
  match l with
  | x :: _ => Ok x
  | [] => Raise IndexError
  end.

(** The failure of the lookup [STATUS_MAP[code]]: a [KeyError] carrying the
    exit code. *)
Definition UnknownExitCode (code : Z) : exn := KeyError code.

(** ** Settings ([cvxpy.settings], imported as [s]) *)

(** The status constants [s.OPTIMAL], ... that [STATUS_MAP] mentions. *)
Inductive status : Type :=
  | OPTIMAL
  | INFEASIBLE
  | UNBOUNDED
  | OPTIMAL_INACCURATE
  | INFEASIBLE_INACCURATE
  | UNBOUNDED_INACCURATE
  | SOLVER_ERROR.

#[export] Instance status_eq_dec : EqDecision status.
Proof. solve_decision. Defined.

(** The keys [s.SOLVE_TIME], [s.SETUP_TIME], [s.NUM_ITERS] of the attributes
    of a solution. *)
Inductive attr_key : Type :=
  | SOLVE_TIME
  | SETUP_TIME
  | NUM_ITERS.

#[export] Instance attr_key_eq_dec : EqDecision attr_key.
Proof. solve_decision. Defined.

#[export] Instance attr_key_countable : Countable attr_key.
Proof.
  refine (inj_countable'
    (fun k => match k with SOLVE_TIME => 0%nat | SETUP_TIME => 1%nat | NUM_ITERS => 2%nat end)
    (fun n => match n with 0%nat => SOLVE_TIME | 1%nat => SETUP_TIME | _ => NUM_ITERS end) _).
  by intros [].
Defined.

(** An attribute is a time (a float) or a count (an integer). *)
Inductive attr_val : Type :=
  | AFloat (t : float)
  | AInt (n : Z).

(** ** Arrays *)

Abbreviation vector := (list float).
(** A matrix is the list of its rows. *)
Abbreviation matrix := (list (list float)).

(** [M.ravel()]: the entries of [M] in row-major order. *)
Definition ravel (M : matrix) : vector := concat M.

(** ** The solver's raw result: [solution] in [invert] *)

Record Timing : Type := mkTiming {
  tsolve : float;
  tsetup : float
}.

Record Info : Type := mkInfo {
  exitFlag : Z;
  timing : Timing;
  iter : Z;
  pcost : float
}.

Record RawSolution : Type := mkRawSolution {
  raw_x : vector;   (* solution['x'] *)
  raw_y : vector;   (* solution['y'] *)
  raw_z : vector;   (* solution['z'] *)
  info : Info       (* solution['info'] *)
}.

(** ** Solutions ([cvxpy.reductions.solution]) *)

(** The class [Solution] is not among the sources; its constructor takes
    the status, the optimal value, the primal and dual variable maps and
    the attributes.  An undefined optimal value is [None]. *)

Record Solution : Type := mkSolution {
  sol_status : status;
  opt_val : option float;
  primal_vars : gmap Z vector;
  dual_vars : gmap Z vector;
  attr : gmap attr_key attr_val
}.

(** Modelled from the spec: [failure_solution] of
    [cvxpy.reductions.solution] is not among the sources.  It is "the
    canonical failure Solution carrying only the translated status -- no
    primal/dual maps, no optimal value". *)
Definition failure_solution (st : status) : Solution :=
  mkSolution st None ∅ ∅ ∅.

(** ** The class-level tables of [ECOS] *)

Definition MIP_CAPABLE : bool := false.

(** Map of ECOS status to CVXPY status. *)
Definition STATUS_MAP : gmap Z status :=
  list_to_map
    [ (0, OPTIMAL);
      (1, INFEASIBLE);
      (2, UNBOUNDED);
      (10, OPTIMAL_INACCURATE);
      (11, INFEASIBLE_INACCURATE);
      (12, UNBOUNDED_INACCURATE);
      (-1, SOLVER_ERROR);
      (-2, SOLVER_ERROR);
      (-3, SOLVER_ERROR);
      (-4, SOLVER_ERROR);
      (-7, SOLVER_ERROR) ].

(** Order of exponential cone arguments for solver. *)
Definition EXP_CONE_ORDER : list nat := [0; 2; 1]%nat.

(** The status that ECOS reports with its exit code offset by
    [ECOS_INACC_OFFSET]: the inaccurate variant of an accurate status. *)
Definition inaccurate (st : status) : status :=
  match st with
  | OPTIMAL => OPTIMAL_INACCURATE
  | INFEASIBLE => INFEASIBLE_INACCURATE
  | UNBOUNDED => UNBOUNDED_INACCURATE
  | _ => st
  end.

(** ** Constraints and problems

    The classes of [cvxpy.constraints] and the problem class are not among
    the sources; a constraint is the record of what this file reads from
    it: its class, its [id], its [size], and for the cones [cone_sizes()]
    and [num_cones()]. *)

Inductive ConstrType : Type :=
  | Zero                    (* equality *)
  | NonPos                  (* componentwise inequality *)
  | SOC                     (* second-order cones *)
  | ExpCone                 (* exponential cones *)
  | Other (cls : string).   (* any other class of constraint *)

#[export] Instance ConstrType_eq_dec : EqDecision ConstrType.
Proof. solve_decision. Defined.

(** [ConicSolver.SUPPORTED_CONSTRAINTS] is not among the sources: the two
    linear kinds of the four the specification recognises. *)
Definition ConicSolver_SUPPORTED_CONSTRAINTS : list ConstrType := [Zero; NonPos].

Definition SUPPORTED_CONSTRAINTS : list ConstrType :=
  ConicSolver_SUPPORTED_CONSTRAINTS ++ [SOC; ExpCone].

(** A signed 64-bit integer of numpy: [z] modulo 2^64, from -2^63 on. *)
Definition wrap_int64 (z : Z) : Z := (z + 2 ^ 63) mod 2 ^ 64 - 2 ^ 63.

(** [np.prod(size)] of a shape [(rows, cols)]: numpy converts the tuple to
    an array of 64-bit integers (the entries of a shape are dimensions of
    arrays, below 2^63) and multiplies in that type, which wraps. *)
Definition np_prod (size : nat * nat) : Z :=
  wrap_int64 (Z.of_nat size.1 * Z.of_nat size.2).

(** [sum(l)] of a list of 64-bit integers of numpy: Python starts from 0
    and every addition is numpy's, which wraps. *)
Definition np_sum (l : list Z) : Z :=
  foldl (fun acc v => wrap_int64 (acc + v)) 0 l.

Inductive ObjSense : Type := Minimize | Maximize.

(** A decision-variable block ([Variable] is reserved in Rocq). *)
Record Var : Type := mkVar {
  var_id : Z
}.

(** The dims descriptor [data[s.DIMS]], with keys ['l'], ['q'], ['e']. *)
Record Dims : Type := mkDims {
  dims_l : Z;
  dims_q : list nat;
  dims_e : nat
}.

(** ** Reordering the rows of exponential cones *)

(** Rows [order[0]], [order[1]], ... of a block, in that order. *)
Definition permute {A : Type} (order : list nat) (block : list A) : list A :=
  omap (fun i => block !! i) order.

(** The inverse: row [i] of the block goes back to position [order[i]]. *)
Definition unpermute {A : Type} (order : list nat) (block : list A) : list A :=
  foldl (fun acc iv => <[iv.1 := iv.2]> acc) block (zip order block).

(** Following the spec's words ("permute each cone's three coordinate rows
    into the target solver's required internal ordering (index 0, index 2,
    index 1)"): the row of an exponential-cone block that the solver has
    at position [i], which is in cone [i / 3]. *)
Definition exp_cone_row (i : nat) : nat :=
  (3 * (i / 3) + match i mod 3 with 0 => 0 | 1 => 2 | _ => 1 end)%nat.

(** Apply [f] to every cone of an exponential-cone constraint: to each
    block of three consecutive rows. *)
Fixpoint each_cone {A : Type} (f : list A -> list A) (rows : list A) : list A :=
  match rows with
  | r0 :: r1 :: r2 :: rest => f [r0; r1; r2] ++ each_cone f rest
  | _ => rows
  end.

Section ECOS.

(** Affine expressions are produced by the modelling layer, and their
    coefficient extraction [ConicSolver.get_coeff_offset] is a collaborator:
    both are parameters, and so is the list [s.SOLUTION_PRESENT] of
    [cvxpy.settings]. *)
Variable Expr : Type.
Variable get_coeff_offset : Expr -> result (matrix * vector).
Variable SOLUTION_PRESENT : list status.

Record Constraint : Type := mkConstraint {
  constr_type : ConstrType;   (* type(c) *)
  constr_id : Z;              (* c.id *)
  size : nat * nat;           (* c.size *)
  cone_sizes : list nat;      (* c.cone_sizes() *)
  num_cones : nat;            (* c.num_cones() *)
  expr : Expr                 (* the affine expression constrained *)
}.

Record Objective : Type := mkObjective {
  sense : ObjSense;           (* type(problem.objective) *)
  args : list Expr            (* problem.objective.args *)
}.

Record Problem : Type := mkProblem {
  objective : Objective;
  variables : list Var;
  constraints : list Constraint
}.

(** The dictionary [data] that [apply] returns. *)
Record SolverArguments : Type := mkSolverArguments {
  data_C : vector;
  data_OFFSET : vector;
  data_A : matrix;
  data_B : vector;
  data_DIMS : Dims;
  data_G : matrix;
  data_H : vector
}.

(** The dictionary [inv_data] that [apply] returns and [invert] reads. *)
Record InverseData : Type := mkInverseData {
  VAR_ID : Z;
  inv_OFFSET : float;
  EQ_CONSTR : list Constraint;
  NEQ_CONSTR : list Constraint
}.

(** *** Constraint grouping *)

Definition recognized (t : ConstrType) : bool :=
  match t with
  | Zero | NonPos | SOC | ExpCone => true
  | Other _ => false
  end.

(** [constr_map[t].append(c)] *)
Definition append_to (constr_map : ConstrType -> list Constraint)
    (t : ConstrType) (c : Constraint) : ConstrType -> list Constraint :=
  fun t' => if decide (t' = t) then constr_map t' ++ [c] else constr_map t'.

(** The single pass of the grouping, from the groups found so far. *)
Fixpoint group_constraints_from (constr_map : ConstrType -> list Constraint)
    (cs : list Constraint) : result (ConstrType -> list Constraint) :=
  match cs with
  | [] => Ok constr_map
  | c :: cs' =>
      if recognized (constr_type c)
      then group_constraints_from (append_to constr_map (constr_type c) c) cs'
      else Raise UnsupportedConstraint
  end.

(** Modelled from the spec: [group_constraints] of
    [cvxpy.reductions.solvers.solver] is not among the sources.  It
    partitions the flat constraint list in a single pass into ordered
    sublists, one per kind, "preserving each kind's relative original
    order", and "fails with UnsupportedConstraint if a constraint kind
    outside the four recognized kinds appears". *)
Definition group_constraints (cs : list Constraint)
    : result (ConstrType -> list Constraint) :=
  group_constraints_from (fun _ => []) cs.

(** *** Stacking and scattering rows *)

(** Modelled from the spec: the formatting of the rows of one constraint
    is not among the sources.  The rows of a constraint as the solver
    wants them: "for exponential-cone constraints specifically, permute
    each cone's three coordinate rows into the target solver's required
    internal ordering". *)
Definition format_rows {A : Type} (exp_cone_order : list nat)
    (c : Constraint) (rows : list A) : list A :=
  match constr_type c with
  | ExpCone => each_cone (permute exp_cone_order) rows
  | _ => rows
  end.

(** Modelled from the spec: the rows of a constraint as the problem has
    them, from the solver's, by "the inverse of the exponential-cone row
    permutation". *)
Definition restore_rows {A : Type} (exp_cone_order : list nat)
    (c : Constraint) (rows : list A) : list A :=
  match constr_type c with
  | ExpCone => each_cone (unpermute exp_cone_order) rows
  | _ => rows
  end.

(** The coefficient extraction of one constraint, its rows formatted. *)
Definition format_constr (exp_cone_order : list nat) (c : Constraint)
    : result (matrix * vector) :=
  '(coeff, offset) ← get_coeff_offset (expr c);
  Ok (format_rows exp_cone_order c coeff, format_rows exp_cone_order c offset).

(** Modelled from the spec: [ConicSolver.group_coeff_offset] is not among
    the sources.  It is the "row-stacking of each constraint's own
    coefficient extraction, preserving group order", where "for
    exponential-cone constraints specifically" each cone's three rows are
    permuted into the given order "before stacking". *)
Definition group_coeff_offset (constrs : list Constraint)
    (exp_cone_order : list nat) : result (matrix * vector) :=
  blocks ← mapM (format_constr exp_cone_order) constrs;
  Ok (concat blocks.*1, concat blocks.*2).

(** The element count of a constraint: rows times columns. *)
Definition num_elems (c : Constraint) : nat := ((size c).1 * (size c).2)%nat.

(** One step of the scatter: the next [num_elems constr] entries of
    [result_vec] go to [constr.id]. *)
Definition scatter_step (result_vec : vector)
    (acc : gmap Z vector * nat) (constr : Constraint) : gmap Z vector * nat :=
  let '(dual_vars, offset) := acc in
  let n := num_elems constr in
  (<[constr_id constr :=
       restore_rows EXP_CONE_ORDER constr (take n (drop offset result_vec))]>
     dual_vars,
   (offset + n)%nat).

(** Modelled from the spec: [ConicSolver.get_dual_values] is not among the
    sources.  It "scatters" a flat dual vector "back onto the recorded"
    constraint list "in the same order used to build" the matrix, giving
    each constraint as many entries as it has elements and "applying the
    inverse of the exponential-cone row permutation ... to any
    exponential-cone dual rows".  The calls in [invert] pass the vector and
    the constraints only, so the permutation is the class constant. *)
Definition get_dual_values (result_vec : vector)
    (constraints : list Constraint) : gmap Z vector :=
  (foldl (scatter_step result_vec) (∅, 0%nat) constraints).1.

(** *** [ECOS.apply] *)

Definition apply (problem : Problem) : result (SolverArguments * InverseData) :=
  v ← index0 (variables problem);
  obj ← index0 (args (objective problem));
  '(c, offset) ← get_coeff_offset obj;
  let c := ravel c in
  offset0 ← index0 offset;
  constr_map ← group_constraints (constraints problem);
  '(A, b) ← group_coeff_offset (constr_map Zero) EXP_CONE_ORDER;
  (* Order and group nonlinear constraints. *)
  let dims :=
    {| dims_l := np_sum ((fun c => np_prod (size c)) <$> constr_map NonPos);
       dims_q := c ← constr_map SOC; cone_sizes c;
       dims_e := sum_list (num_cones <$> constr_map ExpCone) |} in
  let neq_constr := constr_map NonPos ++ constr_map SOC ++ constr_map ExpCone in
  '(G, h) ← group_coeff_offset neq_constr EXP_CONE_ORDER;
  Ok ({| data_C := c; data_OFFSET := offset; data_A := A; data_B := b;
         data_DIMS := dims; data_G := G; data_H := h |},
      {| VAR_ID := var_id v; inv_OFFSET := offset0;
         EQ_CONSTR := constr_map Zero; NEQ_CONSTR := neq_constr |}).

(** The constraints of kind [t], in their order in [cs]. *)
Definition of_kind (t : ConstrType) (cs : list Constraint) : list Constraint :=
  filter (fun c => constr_type c = t) cs.

(** The steps of [apply] on the objective succeed: the problem has a first
    variable block and a first objective argument, and coefficient
    extraction gives that argument an offset vector with an entry 0. *)
Definition objective_ok (problem : Problem) : Prop :=
  ∃ v vs obj objs c offset0 offset,
    variables problem = v :: vs
    ∧ args (objective problem) = obj :: objs
    ∧ get_coeff_offset obj = Ok (c, offset0 :: offset).

(** The problems that [apply] transforms: the objective steps succeed,
    every constraint is of a recognised kind and has a coefficient
    extraction. *)
Definition supported_problem (problem : Problem) : Prop :=
  objective_ok problem
  ∧ Forall (fun c => recognized (constr_type c) = true
                     ∧ ∃ blk, get_coeff_offset (expr c) = Ok blk)
      (constraints problem).

(** Following the spec's words: the row of the block of [n] rows of the
    constraint [c] that the solver has at position [i] of its block.  Only
    the complete cones of an exponential-cone constraint are reordered. *)
Definition solver_row (c : Constraint) (n i : nat) : nat :=
  if bool_decide (constr_type c = ExpCone) && (i <? 3 * (n / 3))%nat
  then exp_cone_row i else i.

(** [rows'] holds the rows [rows] of the constraint [c] in the solver's
    order. *)
Definition in_solver_order {A : Type} (c : Constraint)
    (rows rows' : list A) : Prop :=
  length rows' = length rows
  ∧ ∀ i, (i < length rows)%nat →
         rows' !! i = rows !! solver_row c (length rows) i.

(** The position in a flat vector of the block of the constraint [cs[i]]:
    the element counts of the constraints before it. *)
Definition block_offset (cs : list Constraint) (i : nat) : nat :=
  sum_list (num_elems <$> take i cs).

(** The flat vector that holds the block [ds[i]] of each constraint
    [cs[i]], one block after the other, in the solver's row order. *)
Definition solver_layout (cs : list Constraint) (ds : list vector) : vector :=
  concat (zip_with (format_rows EXP_CONE_ORDER) cs ds).

(** *** [ECOS.invert] *)

Definition invert (solution : RawSolution) (inverse_data : InverseData)
    : result Solution :=
  match STATUS_MAP !! exitFlag (info solution) with
  | None => Raise (UnknownExitCode (exitFlag (info solution)))
  | Some status =>
      (* Timing data *)
      let attr : gmap attr_key attr_val :=
        <[NUM_ITERS := AInt (iter (info solution))]>
          (<[SETUP_TIME := AFloat (tsetup (timing (info solution)))]>
             (<[SOLVE_TIME := AFloat (tsolve (timing (info solution)))]> ∅)) in
      if bool_decide (status ∈ SOLUTION_PRESENT) then
        let primal_val := pcost (info solution) in
        let opt_val := (primal_val + inv_OFFSET inverse_data)%float in
        let primal_vars : gmap Z vector :=
          {[ VAR_ID inverse_data := raw_x solution ]} in
        let eq_dual :=
          get_dual_values (raw_y solution) (EQ_CONSTR inverse_data) in
        let leq_dual :=
          get_dual_values (raw_z solution) (NEQ_CONSTR inverse_data) in
        (* eq_dual.update(leq_dual): the entries of leq_dual win *)
        let dual_vars := leq_dual ∪ eq_dual in
        Ok (mkSolution status (Some opt_val) primal_vars dual_vars attr)
      else
        Ok (failure_solution status)
  end.

(** *** [ECOS.solve_via_data] *)

(** The options of the solver are opaque values under string keys, and the
    solver [ecos.solve] is an opaque function of its arguments. *)
Variable OptVal : Type.

(** The arguments of one call [ecos.solve(c, G, h, dims, A, b,
    verbose=..., **solver_opts)]. *)
Record EcosCall : Type := mkEcosCall {
  call_c : vector;
  call_G : matrix;
  call_h : vector;
  call_dims : Dims;
  call_A : matrix;
  call_b : vector;
  call_kwargs : gmap string OptVal;
  call_verbose : bool
}.

Variable ecos_solve : EcosCall -> result RawSolution.

(** The call that [solve_via_data] makes.  Python refuses a call that gives
    the keyword [verbose] a second time through [**solver_opts]. *)
Definition solve_via_data_call (data : SolverArguments) (warm_start : bool)
    (verbose : bool) (solver_opts : gmap string OptVal) : result EcosCall :=
  if bool_decide ("verbose" ∈ dom solver_opts) then Raise TypeError
  else Ok {| call_c := data_C data; call_G := data_G data;
             call_h := data_H data; call_dims := data_DIMS data;
             call_A := data_A data; call_b := data_B data;
             call_kwargs := solver_opts; call_verbose := verbose |}.

Definition solve_via_data (data : SolverArguments) (warm_start : bool)
    (verbose : bool) (solver_opts : gmap string OptVal) : result RawSolution :=
  call ← solve_via_data_call data warm_start verbose solver_opts;
  ecos_solve call.

End ECOS.

(** The parameters [Expr] and [OptVal] are implicit from here on. *)
Arguments mkConstraint {Expr}.
Arguments constr_type {Expr}.
Arguments constr_id {Expr}.
Arguments size {Expr}.
Arguments cone_sizes {Expr}.
Arguments num_cones {Expr}.
Arguments expr {Expr}.
Arguments mkObjective {Expr}.
Arguments sense {Expr}.
Arguments args {Expr}.
Arguments mkProblem {Expr}.
Arguments objective {Expr}.
Arguments variables {Expr}.
Arguments constraints {Expr}.
Arguments mkInverseData {Expr}.
Arguments VAR_ID {Expr}.
Arguments inv_OFFSET {Expr}.
Arguments EQ_CONSTR {Expr}.
Arguments NEQ_CONSTR {Expr}.
Arguments append_to {Expr}.
Arguments group_constraints_from {Expr}.
Arguments group_constraints {Expr}.
Arguments format_rows {Expr A}.
Arguments restore_rows {Expr A}.
Arguments format_constr {Expr}.
Arguments group_coeff_offset {Expr}.
Arguments num_elems {Expr}.
Arguments scatter_step {Expr}.
Arguments get_dual_values {Expr}.
Arguments apply {Expr}.
Arguments of_kind {Expr}.
Arguments objective_ok {Expr}.
Arguments supported_problem {Expr}.
Arguments solver_layout {Expr}.
Arguments solver_row {Expr}.
Arguments in_solver_order {Expr A}.
Arguments block_offset {Expr}.
Arguments invert {Expr}.
Arguments mkEcosCall {OptVal}.
Arguments call_c {OptVal}.
Arguments call_G {OptVal}.
Arguments call_h {OptVal}.
Arguments call_dims {OptVal}.
Arguments call_A {OptVal}.
Arguments call_b {OptVal}.
Arguments call_kwargs {OptVal}.
Arguments call_verbose {OptVal}.
Arguments solve_via_data_call {OptVal}.
Arguments solve_via_data {OptVal}.

(** ** Sample inputs *)

(** An affine expression given by its coefficients, or an expression that
    coefficient extraction rejects. *)
Inductive SampleExpr : Type :=
  | Affine (coeff : matrix) (offset : vector)
  | NotAffine.

Definition sample_get_coeff_offset (e : SampleExpr) : result (matrix * vector) :=
  match e with
  | Affine coeff offset => Ok (coeff, offset)
  | NotAffine => Raise ExtractionError
  end.

(** A value of [s.SOLUTION_PRESENT]: the statuses that carry a solution. *)
Definition sample_SOLUTION_PRESENT : list status := [OPTIMAL; OPTIMAL_INACCURATE].

(** The objective [2x + 5] over one scalar variable. *)
Definition sample_objective_expr : SampleExpr := Affine [[2%float]] [5%float].

Definition sample_eq : Constraint SampleExpr :=
  mkConstraint Zero 1 (1, 1)%nat [] 0%nat (Affine [[1%float]] [4%float]).

Definition sample_leq : Constraint SampleExpr :=
  mkConstraint NonPos 2 (2, 1)%nat [] 0%nat
    (Affine [[1%float]; [(-1)%float]] [0%float; 1%float]).

Definition sample_soc : Constraint SampleExpr :=
  mkConstraint SOC 3 (2, 1)%nat [2%nat] 1%nat
    (Affine [[0%float]; [1%float]] [6%float; 0%float]).

Definition sample_exp : Constraint SampleExpr :=
  mkConstraint ExpCone 4 (3, 1)%nat [] 1%nat
    (Affine [[1%float]; [0%float]; [3%float]] [7%float; 8%float; 9%float]).

Definition sample_psd : Constraint SampleExpr :=
  mkConstraint (Other "PSD") 5 (1, 1)%nat [] 0%nat (Affine [[1%float]] [0%float]).

(** [minimize 2x + 5] under one constraint of each recognised kind, listed
    with the cones first. *)
Definition sample_problem : Problem SampleExpr :=
  mkProblem (mkObjective Minimize [sample_objective_expr]) [mkVar 0]
    [sample_exp; sample_soc; sample_leq; sample_eq].

(** Several constraints of each kind, with shapes of more than one column
    and constraints of more than one cone. *)
Definition sample_eq_a : Constraint SampleExpr :=
  mkConstraint Zero 11 (2, 1)%nat [] 0%nat
    (Affine [[1%float]; [2%float]] [3%float; 4%float]).

Definition sample_eq_b : Constraint SampleExpr :=
  mkConstraint Zero 18 (1, 1)%nat [] 0%nat (Affine [[5%float]] [6%float]).

Definition sample_leq_a : Constraint SampleExpr :=
  mkConstraint NonPos 12 (2, 3)%nat [] 0%nat
    (Affine [[10%float]; [11%float]; [12%float]; [13%float]; [14%float];
             [15%float]]
       [110%float; 111%float; 112%float; 113%float; 114%float; 115%float]).

Definition sample_leq_b : Constraint SampleExpr :=
  mkConstraint NonPos 15 (4, 1)%nat [] 0%nat
    (Affine [[20%float]; [21%float]; [22%float]; [23%float]]
       [120%float; 121%float; 122%float; 123%float]).

Definition sample_soc_a : Constraint SampleExpr :=
  mkConstraint SOC 13 (5, 1)%nat [3; 2]%nat 2%nat
    (Affine [[30%float]; [31%float]; [32%float]; [33%float]; [34%float]]
       [130%float; 131%float; 132%float; 133%float; 134%float]).

Definition sample_soc_b : Constraint SampleExpr :=
  mkConstraint SOC 16 (4, 1)%nat [4%nat] 1%nat
    (Affine [[40%float]; [41%float]; [42%float]; [43%float]]
       [140%float; 141%float; 142%float; 143%float]).

Definition sample_exp_a : Constraint SampleExpr :=
  mkConstraint ExpCone 14 (6, 1)%nat [] 2%nat
    (Affine [[50%float]; [51%float]; [52%float]; [53%float]; [54%float];
             [55%float]]
       [150%float; 151%float; 152%float; 153%float; 154%float; 155%float]).

Definition sample_exp_b : Constraint SampleExpr :=
  mkConstraint ExpCone 17 (3, 1)%nat [] 1%nat
    (Affine [[60%float]; [61%float]; [62%float]]
       [160%float; 161%float; 162%float]).

Definition sample_problem_cones : Problem SampleExpr :=
  mkProblem (mkObjective Minimize [sample_objective_expr]) [mkVar 0]
    [sample_exp_a; sample_soc_a; sample_leq_a; sample_eq_a;
     sample_soc_b; sample_leq_b; sample_eq_b; sample_exp_b].

(** The inverse data of [sample_problem_cones]. *)
Definition sample_inverse_data_cones : InverseData SampleExpr :=
  mkInverseData 0 5%float [sample_eq_a; sample_eq_b]
    [sample_leq_a; sample_leq_b; sample_soc_a; sample_soc_b;
     sample_exp_a; sample_exp_b].

(** A raw result for [sample_problem_cones], optimal, whose cone-dual
    vector numbers its 28 entries. *)
Definition sample_raw_cones : RawSolution :=
  mkRawSolution [0.5%float] [1%float; 2%float; 3%float]
    [1%float; 2%float; 3%float; 4%float; 5%float; 6%float;
     7%float; 8%float; 9%float; 10%float;
     11%float; 12%float; 13%float; 14%float; 15%float;
     16%float; 17%float; 18%float; 19%float;
     20%float; 21%float; 22%float; 23%float; 24%float; 25%float;
     26%float; 27%float; 28%float]
    (mkInfo 0 (mkTiming 0.25 0.125) 7 3%float).

(** A problem with a constraint of an unrecognised kind before and after
    recognised ones. *)
Definition sample_unsupported_first : Problem SampleExpr :=
  mkProblem (mkObjective Minimize [sample_objective_expr]) [mkVar 0]
    [sample_psd; sample_leq; sample_eq].

(** The same problem with its constraints listed in another order. *)
Definition sample_problem_reordered : Problem SampleExpr :=
  mkProblem (mkObjective Minimize [sample_objective_expr]) [mkVar 0]
    [sample_eq; sample_leq; sample_exp; sample_soc].

(** A problem whose objective has no coefficient extraction. *)
Definition sample_not_affine : Problem SampleExpr :=
  mkProblem (mkObjective Minimize [NotAffine]) [mkVar 0] [sample_psd].

(** The same problem as a maximization over two variable blocks. *)
Definition sample_maximize : Problem SampleExpr :=
  mkProblem (mkObjective Maximize [sample_objective_expr]) [mkVar 0; mkVar 9]
    [sample_exp; sample_soc; sample_leq; sample_eq].

(** A problem without decision variables and with a constraint of an
    unrecognised kind. *)
Definition sample_no_variable : Problem SampleExpr :=
  mkProblem (mkObjective Minimize [sample_objective_expr]) [] [sample_psd].

(** A problem with a well-formed objective and a constraint of an
    unrecognised kind. *)
Definition sample_unsupported : Problem SampleExpr :=
  mkProblem (mkObjective Minimize [sample_objective_expr]) [mkVar 0]
    [sample_leq; sample_psd].

(** The inverse data of [sample_problem]. *)
Definition sample_inverse_data : InverseData SampleExpr :=
  mkInverseData 0 5%float [sample_eq] [sample_leq; sample_soc; sample_exp].

(** Other inverse data: another variable, offset and constraint lists. *)
Definition sample_inverse_data' : InverseData SampleExpr :=
  mkInverseData 9 1%float [] [sample_soc].

(** The data of [sample_problem]. *)
Definition sample_data : SolverArguments :=
  mkSolverArguments [2%float] [5%float] [[1%float]] [4%float]
    (mkDims 2 [2%nat] 1)
    [[1%float]; [(-1)%float]; [0%float]; [1%float]; [1%float]; [3%float];
     [0%float]]
    [0%float; 1%float; 6%float; 0%float; 7%float; 9%float; 8%float].

(** A raw result with the given exit code, timings and iteration count,
    primal cost 3.0, and a cone-dual vector that holds one block per
    constraint of [sample_inverse_data] in the solver's row order. *)
Definition sample_raw (code : Z) (ts tu : float) (it : Z) : RawSolution :=
  mkRawSolution [0.5%float] [1.5%float]
    [10%float; 11%float; 20%float; 21%float; 30%float; 32%float; 31%float]
    (mkInfo code (mkTiming ts tu) it 3%float).

(** A stand-in for the solver, with integer options: it reports the
    option [max_iters], when given, as its iteration count. *)
Definition sample_ecos_solve (call : EcosCall Z) : result RawSolution :=
  Ok (sample_raw 0 0.25 0.125 (default 7 (call_kwargs call !! "max_iters"))).

(** * Properties *)

(** ** The status table *)

Lemma STATUS_MAP_unknown (code : Z) :
  code ∉ [0; 1; 2; 10; 11; 12; -1; -2; -3; -4; -7] →
  STATUS_MAP !! code = None.
Proof.
  intros Hcode. apply not_elem_of_list_to_map_1. exact Hcode.
Qed.

Lemma STATUS_MAP_known (code : Z) (st : status) :
  (code, st) ∈
    [ (0, OPTIMAL); (1, INFEASIBLE); (2, UNBOUNDED);
      (10, OPTIMAL_INACCURATE); (11, INFEASIBLE_INACCURATE);
      (12, UNBOUNDED_INACCURATE); (-1, SOLVER_ERROR); (-2, SOLVER_ERROR);
      (-3, SOLVER_ERROR); (-4, SOLVER_ERROR); (-7, SOLVER_ERROR) ] →
  STATUS_MAP !! code = Some st.
Proof.
  intros Hin. apply elem_of_list_to_map_1; [|exact Hin].
  apply (bool_decide_unpack _). by vm_compute.
Qed.

Section Properties.

Variable Expr : Type.
Variable get_coeff_offset : Expr -> result (matrix * vector).
Variable SOLUTION_PRESENT : list status.

(** ** The inverse transform *)

Implicit Types (solution : RawSolution) (inverse_data : InverseData Expr).

Lemma invert_unknown solution inverse_data :
  STATUS_MAP !! exitFlag (info solution) = None →
  invert SOLUTION_PRESENT solution inverse_data
  = Raise (UnknownExitCode (exitFlag (info solution))).
Proof. intros Hnone. unfold invert. by rewrite Hnone. Qed.

Lemma invert_present solution inverse_data st :
  STATUS_MAP !! exitFlag (info solution) = Some st →
  st ∈ SOLUTION_PRESENT →
  invert SOLUTION_PRESENT solution inverse_data
  = Ok (mkSolution st
          (Some (pcost (info solution) + inv_OFFSET inverse_data)%float)
          {[ VAR_ID inverse_data := raw_x solution ]}
          (get_dual_values (raw_z solution) (NEQ_CONSTR inverse_data)
             ∪ get_dual_values (raw_y solution) (EQ_CONSTR inverse_data))
          (<[NUM_ITERS := AInt (iter (info solution))]>
             (<[SETUP_TIME := AFloat (tsetup (timing (info solution)))]>
                (<[SOLVE_TIME := AFloat (tsolve (timing (info solution)))]> ∅)))).
Proof.
  intros Hst Hin. unfold invert. rewrite Hst.
  by rewrite bool_decide_eq_true_2.
Qed.

Lemma invert_absent solution inverse_data st :
  STATUS_MAP !! exitFlag (info solution) = Some st →
  st ∉ SOLUTION_PRESENT →
  invert SOLUTION_PRESENT solution inverse_data = Ok (failure_solution st).
Proof.
  intros Hst Hin. unfold invert. rewrite Hst.
  by rewrite bool_decide_eq_false_2.
Qed.

Lemma invert_status solution inverse_data st :
  STATUS_MAP !! exitFlag (info solution) = Some st →
  ∃ sol, invert SOLUTION_PRESENT solution inverse_data = Ok sol
         ∧ sol_status sol = st.
Proof.
  intros Hst. destruct (decide (st ∈ SOLUTION_PRESENT)) as [Hin|Hin].
  - eexists. split; [by apply invert_present|done].
  - eexists. split; [by apply invert_absent|done].
Qed.

(** C1: when the exit code of the raw result is a key of the status table,
    [invert] returns a solution whose status is the table's image of the
    code (0 optimal, 1 infeasible, 2 unbounded, 10, 11 and 12 their
    inaccurate variants, -1, -2, -3, -4 and -7 solver error); for any other
    exit code [invert] fails with [UnknownExitCode], so it returns no
    solution at all. *)
Theorem invert_status_totality solution inverse_data :
  let code := exitFlag (info solution) in
  (∀ st,
     (code, st) ∈
       [ (0, OPTIMAL); (1, INFEASIBLE); (2, UNBOUNDED);
         (10, OPTIMAL_INACCURATE); (11, INFEASIBLE_INACCURATE);
         (12, UNBOUNDED_INACCURATE); (-1, SOLVER_ERROR); (-2, SOLVER_ERROR);
         (-3, SOLVER_ERROR); (-4, SOLVER_ERROR); (-7, SOLVER_ERROR) ] →
     ∃ sol, invert SOLUTION_PRESENT solution inverse_data = Ok sol
            ∧ sol_status sol = st)
  ∧ (code ∉ [0; 1; 2; 10; 11; 12; -1; -2; -3; -4; -7] →
     invert SOLUTION_PRESENT solution inverse_data
     = Raise (UnknownExitCode code)
     ∧ ∀ sol, invert SOLUTION_PRESENT solution inverse_data ≠ Ok sol).
Proof.
  intros code. split.
  - intros st Hin. apply invert_status. by apply STATUS_MAP_known.
  - intros Hout.
    assert (invert SOLUTION_PRESENT solution inverse_data
            = Raise (UnknownExitCode code)) as Hraise.
    { apply invert_unknown. by apply STATUS_MAP_unknown. }
    split; [exact Hraise|]. intros sol Hsol. congruence.
Qed.

Lemma invert_present_attr solution inverse_data st :
  STATUS_MAP !! exitFlag (info solution) = Some st →
  st ∈ SOLUTION_PRESENT →
  ∃ sol, invert SOLUTION_PRESENT solution inverse_data = Ok sol
    ∧ attr sol !! SOLVE_TIME = Some (AFloat (tsolve (timing (info solution))))
    ∧ attr sol !! SETUP_TIME = Some (AFloat (tsetup (timing (info solution))))
    ∧ attr sol !! NUM_ITERS = Some (AInt (iter (info solution))).
Proof.
  intros Hst Hin. eexists. split; [by apply invert_present|].
  by cbn; simplify_map_eq.
Qed.

(** C4: the attributes are computed for every status, and the solution
    returned for a status that carries a solution holds them
    ([invert_present_attr]).  For a status that carries none, [invert]
    returns [failure_solution status], which is built from the status
    alone: the solve time, setup time and iteration count of the raw
    result are not in the solution returned, which is the same for every
    raw result with that exit code. *)
Theorem invert_failure_drops_attr solution inverse_data st :
  STATUS_MAP !! exitFlag (info solution) = Some st →
  st ∉ SOLUTION_PRESENT →
  ∃ sol, invert SOLUTION_PRESENT solution inverse_data = Ok sol
    ∧ attr sol !! SOLVE_TIME = None
    ∧ attr sol !! SETUP_TIME = None
    ∧ attr sol !! NUM_ITERS = None
    ∧ ∀ solution',
        exitFlag (info solution') = exitFlag (info solution) →
        invert SOLUTION_PRESENT solution' inverse_data = Ok sol.
Proof.
  intros Hst Hin. exists (failure_solution st).
  split; [by apply invert_absent|]. repeat (split; [done|]).
  intros solution' Hcode. apply invert_absent; [|done]. by rewrite Hcode.
Qed.

(** C6: for a raw result whose translated status is not one that carries a
    solution, [invert] returns the canonical failure solution: it has the
    translated status, no primal variable map, no dual variable map and no
    optimal value. *)
Theorem invert_failure_solution solution inverse_data st :
  STATUS_MAP !! exitFlag (info solution) = Some st →
  st ∉ SOLUTION_PRESENT →
  ∃ sol, invert SOLUTION_PRESENT solution inverse_data = Ok sol
    ∧ sol = failure_solution st
    ∧ sol_status sol = st
    ∧ primal_vars sol = ∅
    ∧ dual_vars sol = ∅
    ∧ opt_val sol = None.
Proof.
  intros Hst Hin. exists (failure_solution st).
  split; [by apply invert_absent|]. by cbn.
Qed.

(** ** Constraint grouping *)

Lemma recognized_SUPPORTED_CONSTRAINTS (t : ConstrType) :
  recognized t = true ↔ t ∈ SUPPORTED_CONSTRAINTS.
Proof.
  unfold SUPPORTED_CONSTRAINTS, ConicSolver_SUPPORTED_CONSTRAINTS. cbn.
  rewrite !elem_of_cons, elem_of_nil.
  destruct t; cbn; (split; [intros Hrec|intros [?|[?|[?|[?|[]]]]]]);
    try done; auto.
Qed.

Lemma group_constraints_from_Ok (cs : list (Constraint Expr)) :
  ∀ constr_map constr_map',
    group_constraints_from constr_map cs = Ok constr_map' →
    ∀ t, constr_map' t = constr_map t ++ of_kind t cs.
Proof.
  induction cs as [|c cs IH]; intros m m' Hgroup t; cbn in Hgroup.
  - injection Hgroup as <-. by rewrite app_nil_r.
  - destruct (recognized (constr_type c)); [|discriminate].
    rewrite (IH _ _ Hgroup t). unfold append_to, of_kind.
    case_decide as Ht.
    + subst t. rewrite filter_cons_True by done. by rewrite <- app_assoc.
    + rewrite filter_cons_False; [done|]. intros Heq. by apply Ht.
Qed.

Lemma group_constraints_from_recognized (cs : list (Constraint Expr)) :
  ∀ constr_map,
    Forall (fun c => recognized (constr_type c) = true) cs →
    ∃ constr_map', group_constraints_from constr_map cs = Ok constr_map'.
Proof.
  induction cs as [|c cs IH]; intros m Hall; cbn.
  - by eexists.
  - inversion Hall as [|? ? Hc Hcs]; subst. rewrite Hc. by apply IH.
Qed.

Lemma group_constraints_from_unrecognized (cs : list (Constraint Expr)) :
  ∀ constr_map,
    Exists (fun c => recognized (constr_type c) = false) cs →
    group_constraints_from constr_map cs = Raise UnsupportedConstraint.
Proof.
  induction cs as [|c cs IH]; intros m Hex; cbn.
  - by inversion Hex.
  - destruct (recognized (constr_type c)) eqn:Hc; [|done].
    apply IH. inversion Hex as [? ? Hc'|]; [congruence|done].
Qed.

Lemma group_constraints_Ok (cs : list (Constraint Expr)) constr_map :
  group_constraints cs = Ok constr_map →
  ∀ t, constr_map t = of_kind t cs.
Proof.
  intros Hgroup t. by rewrite (group_constraints_from_Ok _ _ _ Hgroup t).
Qed.

Lemma group_constraints_recognized (cs : list (Constraint Expr)) :
  Forall (fun c => recognized (constr_type c) = true) cs →
  ∃ constr_map, group_constraints cs = Ok constr_map
                ∧ ∀ t, constr_map t = of_kind t cs.
Proof.
  intros Hall.
  destruct (group_constraints_from_recognized cs (fun _ => []) Hall) as [m Hm].
  exists m. split; [done|]. by apply group_constraints_Ok.
Qed.

(** ** Row stacking *)

Lemma mapM_result_Ok {A B : Type} (f : A → result B) (l : list A) (k : list B) :
  mapM f l = Ok k ↔ Forall2 (fun a b => f a = Ok b) l k.
Proof.
  revert k. induction l as [|a l IH]; intros k; cbn.
  - split.
    + intros [= <-]. constructor.
    + intros Hk. by inversion Hk.
  - split.
    + destruct (f a) as [b|] eqn:Hfa; cbn; [|done].
      destruct (mapM f l) as [k'|] eqn:Hl; cbn; [|done].
      intros [= <-]. constructor; [done|]. by apply IH.
    + intros Hk. inversion Hk as [|? b ? k' Hfa Hl]; subst.
      rewrite Hfa. cbn. apply IH in Hl. rewrite Hl. done.
Qed.

Lemma mapM_result_total {A B : Type} (f : A → result B) (l : list A) :
  Forall (fun a => ∃ b, f a = Ok b) l → ∃ k, mapM f l = Ok k.
Proof.
  induction 1 as [|a l [b Hb] _ [k Hk]]; cbn.
  - by eexists.
  - rewrite Hb. cbn. rewrite Hk. cbn. by eexists.
Qed.

Lemma group_coeff_offset_Ok (cs : list (Constraint Expr)) order M v :
  group_coeff_offset get_coeff_offset cs order = Ok (M, v) ↔
  ∃ blocks,
    Forall2 (fun c blk => format_constr get_coeff_offset order c = Ok blk) cs blocks
    ∧ M = concat blocks.*1 ∧ v = concat blocks.*2.
Proof.
  unfold group_coeff_offset. split.
  - destruct (mapM _ cs) as [blocks|] eqn:Hblocks; cbn; [|done].
    intros [= <- <-]. exists blocks. by rewrite <- mapM_result_Ok.
  - intros (blocks & Hblocks & -> & ->).
    apply mapM_result_Ok in Hblocks. by rewrite Hblocks.
Qed.

Lemma format_constr_total order (c : Constraint Expr) :
  (∃ blk, get_coeff_offset (expr c) = Ok blk) →
  ∃ blk, format_constr get_coeff_offset order c = Ok blk.
Proof.
  intros [[M v] Hblk]. unfold format_constr. rewrite Hblk. cbn. by eexists.
Qed.

Lemma group_coeff_offset_total (cs : list (Constraint Expr)) order :
  Forall (fun c => ∃ blk, get_coeff_offset (expr c) = Ok blk) cs →
  ∃ M v, group_coeff_offset get_coeff_offset cs order = Ok (M, v).
Proof.
  intros Hall. unfold group_coeff_offset.
  destruct (mapM_result_total (format_constr get_coeff_offset order) cs) as [k Hk].
  { eapply Forall_impl; [exact Hall|]. intros c. apply format_constr_total. }
  rewrite Hk. cbn. by eexists _, _.
Qed.

Lemma format_constr_linear order (c : Constraint Expr) :
  constr_type c ≠ ExpCone →
  format_constr get_coeff_offset order c = get_coeff_offset (expr c).
Proof.
  intros Hc. unfold format_constr, format_rows.
  destruct (get_coeff_offset (expr c)) as [[M v]|]; cbn; [|done].
  by destruct (constr_type c).
Qed.


(** ** The forward transform *)

Local Arguments group_coeff_offset : simpl never.
Local Arguments group_constraints : simpl never.

Lemma apply_Ok (problem : Problem Expr) data inv_data :
  apply get_coeff_offset problem = Ok (data, inv_data) →
  ∃ v vs obj objs c offset0 offset A b G h,
    variables problem = v :: vs
    ∧ args (objective problem) = obj :: objs
    ∧ get_coeff_offset obj = Ok (c, offset0 :: offset)
    ∧ Forall (fun c => recognized (constr_type c) = true) (constraints problem)
    ∧ group_coeff_offset get_coeff_offset
        (of_kind Zero (constraints problem)) EXP_CONE_ORDER = Ok (A, b)
    ∧ group_coeff_offset get_coeff_offset
        (of_kind NonPos (constraints problem)
           ++ of_kind SOC (constraints problem)
           ++ of_kind ExpCone (constraints problem)) EXP_CONE_ORDER = Ok (G, h)
    ∧ data =
        {| data_C := ravel c; data_OFFSET := offset0 :: offset;
           data_A := A; data_B := b;
           data_DIMS :=
             {| dims_l := np_sum ((fun c => np_prod (size c))
                                    <$> of_kind NonPos (constraints problem));
                dims_q := c ← of_kind SOC (constraints problem); cone_sizes c;
                dims_e := sum_list (num_cones
                                      <$> of_kind ExpCone (constraints problem)) |};
           data_G := G; data_H := h |}
    ∧ inv_data =
        {| VAR_ID := var_id v; inv_OFFSET := offset0;
           EQ_CONSTR := of_kind Zero (constraints problem);
           NEQ_CONSTR := of_kind NonPos (constraints problem)
                           ++ of_kind SOC (constraints problem)
                           ++ of_kind ExpCone (constraints problem) |}.
Proof.
  unfold apply. intros Happly.
  destruct (variables problem) as [|v vs] eqn:Hv; cbn in Happly; [done|].
  destruct (args (objective problem)) as [|obj objs] eqn:Hobj; cbn in Happly; [done|].
  destruct (get_coeff_offset obj) as [[c offset]|] eqn:Hc; cbn in Happly; [|done].
  destruct offset as [|offset0 offset]; cbn in Happly; [done|].
  destruct (group_constraints (constraints problem)) as [constr_map|] eqn:Hmap;
    cbn in Happly; [|done].
  pose proof (group_constraints_Ok _ _ Hmap) as Hkind.
  rewrite !Hkind in Happly.
  destruct (group_coeff_offset _ (of_kind Zero _) _) as [[A b]|] eqn:HA;
    cbn in Happly; [|done].
  destruct (group_coeff_offset _ (_ ++ _) _) as [[G h]|] eqn:HG;
    cbn in Happly; [|done].
  injection Happly as <- <-.
  exists v, vs, obj, objs, c, offset0, offset, A, b, G, h.
  repeat split; try done.
  apply Forall_forall. intros c' Hc'.
  destruct (recognized (constr_type c')) eqn:Hrec; [done|].
  unfold group_constraints in Hmap.
  rewrite group_constraints_from_unrecognized in Hmap; [done|].
  apply Exists_exists. by exists c'.
Qed.

Lemma supported_problem_kinds (problem : Problem Expr) t :
  supported_problem get_coeff_offset problem →
  Forall (fun c => ∃ blk, get_coeff_offset (expr c) = Ok blk)
    (of_kind t (constraints problem)).
Proof.
  intros [_ Hall]. apply Forall_forall. intros c Hc.
  apply list_elem_of_filter in Hc as [_ Hc].
  rewrite Forall_forall in Hall. by destruct (Hall c Hc).
Qed.

Lemma apply_supported (problem : Problem Expr) :
  supported_problem get_coeff_offset problem →
  ∃ data inv_data, apply get_coeff_offset problem = Ok (data, inv_data).
Proof.
  intros Hsup. pose proof Hsup as [Hobj Hall].
  destruct Hobj as (v & vs & obj & objs & c & offset0 & offset & Hv & Hargs & Hc).
  destruct (group_constraints_recognized (constraints problem)) as (m & Hm & Hkind).
  { eapply Forall_impl; [exact Hall|]. by intros c' [? _]. }
  destruct (group_coeff_offset_total (of_kind Zero (constraints problem))
              EXP_CONE_ORDER) as (A & b & HA).
  { by apply supported_problem_kinds. }
  destruct (group_coeff_offset_total
              (of_kind NonPos (constraints problem)
                 ++ of_kind SOC (constraints problem)
                 ++ of_kind ExpCone (constraints problem))
              EXP_CONE_ORDER) as (G & h & HG).
  { rewrite !Forall_app. repeat split; by apply supported_problem_kinds. }
  unfold apply. rewrite Hv, Hargs. cbn. rewrite Hc. cbn. rewrite Hm. cbn.
  rewrite !Hkind, HA. cbn. rewrite HG. cbn. by eexists _, _.
Qed.

Lemma apply_Ok_supported (problem : Problem Expr) data inv_data :
  apply get_coeff_offset problem = Ok (data, inv_data) →
  supported_problem get_coeff_offset problem.
Proof.
  intros Happly.
  destruct (apply_Ok _ _ _ Happly)
    as (v & vs & obj & objs & c & offset0 & offset & A & b & G & h
        & Hv & Hargs & Hc & Hrec & HA & HG & _ & _).
  split; [by exists v, vs, obj, objs, c, offset0, offset|].
  apply group_coeff_offset_Ok in HA as (bA & HbA & _ & _).
  apply group_coeff_offset_Ok in HG as (bG & HbG & _ & _).
  apply Forall_forall. intros c' Hc'. split.
  { rewrite Forall_forall in Hrec. by apply Hrec. }
  assert (c' ∈ of_kind Zero (constraints problem)
          ∨ c' ∈ of_kind NonPos (constraints problem)
                 ++ of_kind SOC (constraints problem)
                 ++ of_kind ExpCone (constraints problem)) as Hin.
  { rewrite Forall_forall in Hrec. specialize (Hrec c' Hc').
    unfold of_kind. rewrite !elem_of_app, !list_elem_of_filter.
    destruct (constr_type c'); naive_solver. }
  assert (∃ blk, format_constr get_coeff_offset EXP_CONE_ORDER c' = Ok blk)
    as [blk Hblk].
  { destruct Hin as [Hin|Hin];
      apply list_elem_of_lookup in Hin as [i Hi].
    - destruct (Forall2_lookup_l _ _ _ _ _ HbA Hi) as (blk & _ & Hblk). by eexists.
    - destruct (Forall2_lookup_l _ _ _ _ _ HbG Hi) as (blk & _ & Hblk). by eexists. }
  unfold format_constr in Hblk.
  destruct (get_coeff_offset (expr c')) as [blk'|]; [by eexists|done].
Qed.


Lemma bind_concat_fmap {A B : Type} (f : A → list B) (l : list A) :
  l ≫= f = concat (f <$> l).
Proof. induction l as [|a l IH]; cbn; [done|]. by rewrite IH. Qed.

Lemma format_constr_linear_blocks order (cs : list (Constraint Expr)) blocks :
  Forall (fun c => constr_type c ≠ ExpCone) cs →
  Forall2 (fun c blk => format_constr get_coeff_offset order c = Ok blk) cs blocks →
  Forall2 (fun c blk => get_coeff_offset (expr c) = Ok blk) cs blocks.
Proof.
  intros Hlin Hblocks.
  induction Hblocks as [|c blk cs blocks Hblk _ IH]; [constructor|].
  inversion Hlin as [|? ? Hc Hcs]; subst. constructor; [|by apply IH].
  by rewrite <- (format_constr_linear order c Hc).
Qed.

(** *** The integers of numpy *)

Lemma wrap_int64_small (z : Z) :
  - 2 ^ 63 ≤ z < 2 ^ 63 → wrap_int64 z = z.
Proof. intros Hz. unfold wrap_int64. rewrite Z.mod_small by lia. lia. Qed.

Lemma wrap_int64_add (a b : Z) :
  wrap_int64 (wrap_int64 a + b) = wrap_int64 (a + b).
Proof.
  unfold wrap_int64.
  replace ((a + 2 ^ 63) mod 2 ^ 64 - 2 ^ 63 + b + 2 ^ 63)
    with ((a + 2 ^ 63) mod 2 ^ 64 + b) by lia.
  rewrite Zplus_mod_idemp_l. f_equal. f_equal. lia.
Qed.

(** The sum of the products wraps once: it is the exact element count
    modulo 2^64. *)
Lemma np_sum_np_prod_from (sizes : list (nat * nat)) :
  ∀ acc,
    foldl (fun acc v => wrap_int64 (acc + v)) (wrap_int64 acc)
      (np_prod <$> sizes)
    = wrap_int64
        (acc + Z.of_nat (sum_list ((fun sz => sz.1 * sz.2)%nat <$> sizes))).
Proof.
  induction sizes as [|sz sizes IH]; intros acc; cbn.
  - f_equal. lia.
  - unfold np_prod at 1. rewrite Z.add_comm, wrap_int64_add, Z.add_comm.
    rewrite wrap_int64_add, IH. f_equal. lia.
Qed.

Lemma np_sum_np_prod (sizes : list (nat * nat)) :
  np_sum (np_prod <$> sizes)
  = wrap_int64 (Z.of_nat (sum_list ((fun sz => sz.1 * sz.2)%nat <$> sizes))).
Proof.
  unfold np_sum.
  change 0 with (wrap_int64 0) at 1. by rewrite np_sum_np_prod_from.
Qed.

(** C7: for a supported problem the dims descriptor that [apply] builds has
    under ['q'] the concatenation, in the order of the constraints, of the
    cone sizes of the second-order cone constraints, and under ['e'] the
    sum of the numbers of cones of the exponential cone constraints.
    Under ['l'] it has the sum over the inequality constraints of rows
    times columns, computed in the 64-bit integers of numpy: it is the
    total element count whenever that count is below 2^63, as it is for
    constraints whose rows are held in memory, and the count modulo 2^64
    in any case. *)
Theorem apply_dims (problem : Problem Expr) :
  supported_problem get_coeff_offset problem →
  Z.of_nat
    (sum_list ((fun c => (size c).1 * (size c).2)%nat
                 <$> filter (fun c => constr_type c = NonPos)
                       (constraints problem))) < 2 ^ 63 →
  ∃ data inv_data,
    apply get_coeff_offset problem = Ok (data, inv_data)
    ∧ dims_l (data_DIMS data)
      = Z.of_nat
          (sum_list ((fun c => (size c).1 * (size c).2)%nat
                       <$> filter (fun c => constr_type c = NonPos)
                             (constraints problem)))
    ∧ dims_q (data_DIMS data)
      = concat (cone_sizes
                  <$> filter (fun c => constr_type c = SOC)
                        (constraints problem))
    ∧ dims_e (data_DIMS data)
      = sum_list (num_cones
                    <$> filter (fun c => constr_type c = ExpCone)
                          (constraints problem)).
Proof.
  intros Hsup Hbound.
  destruct (apply_supported _ Hsup) as (data & inv_data & Happly).
  exists data, inv_data. split; [done|].
  destruct (apply_Ok _ _ _ Happly)
    as (v & vs & obj & objs & c & offset0 & offset & A & b & G & h
        & _ & _ & _ & _ & _ & _ & -> & ->).
  cbn [data_DIMS dims_l dims_q dims_e].
  split; [|split; [apply bind_concat_fmap|done]].
  change (np_sum ((np_prod ∘ size) <$> of_kind NonPos (constraints problem))
          = Z.of_nat
              (sum_list (((fun sz => sz.1 * sz.2)%nat ∘ size)
                           <$> of_kind NonPos (constraints problem)))).
  rewrite !list_fmap_compose, np_sum_np_prod.
  rewrite <- list_fmap_compose. apply wrap_int64_small.
  split; [lia|exact Hbound].
Qed.

(** C5: [apply] records as the objective offset entry 0 of the offset
    vector extracted from the objective's argument, and for every raw
    result whose status carries a solution [invert] returns as optimal
    value the raw primal cost plus that recorded offset. *)
Theorem offset_correct (problem : Problem Expr) :
  supported_problem get_coeff_offset problem →
  ∃ data inv_data obj c offset,
    apply get_coeff_offset problem = Ok (data, inv_data)
    ∧ args (objective problem) !! 0%nat = Some obj
    ∧ get_coeff_offset obj = Ok (c, offset)
    ∧ offset !! 0%nat = Some (inv_OFFSET inv_data)
    ∧ ∀ solution st,
        STATUS_MAP !! exitFlag (info solution) = Some st →
        st ∈ SOLUTION_PRESENT →
        ∃ sol,
          invert SOLUTION_PRESENT solution inv_data = Ok sol
          ∧ opt_val sol
            = Some (pcost (info solution) + inv_OFFSET inv_data)%float.
Proof.
  intros Hsup. destruct (apply_supported _ Hsup) as (data & inv_data & Happly).
  destruct (apply_Ok _ _ _ Happly)
    as (v & vs & obj & objs & c & offset0 & offset & A & b & G & h
        & _ & Hargs & Hc & _ & _ & _ & _ & Hinv).
  exists data, inv_data, obj, c, (offset0 :: offset).
  split; [done|]. split; [by rewrite Hargs|]. split; [done|].
  split; [by rewrite Hinv|].
  intros solution st Hst Hin. eexists. split; [by apply invert_present|done].
Qed.

(** ** What [apply] rejects *)

Lemma apply_objective_not_ok (problem : Problem Expr) :
  ¬ objective_ok get_coeff_offset problem →
  ∃ err, apply get_coeff_offset problem = Raise err.
Proof.
  intros Hnot. unfold apply.
  destruct (variables problem) as [|v vs] eqn:Hv; cbn; [by eexists|].
  destruct (args (objective problem)) as [|obj objs] eqn:Hobj; cbn; [by eexists|].
  destruct (get_coeff_offset obj) as [[c offset]|] eqn:Hc; cbn; [|by eexists].
  destruct offset as [|offset0 offset]; cbn; [by eexists|].
  destruct Hnot. by exists v, vs, obj, objs, c, offset0, offset.
Qed.

Lemma apply_unrecognized (problem : Problem Expr) :
  objective_ok get_coeff_offset problem →
  Exists (fun c => recognized (constr_type c) = false) (constraints problem) →
  apply get_coeff_offset problem = Raise UnsupportedConstraint.
Proof.
  intros (v & vs & obj & objs & c & offset0 & offset & Hv & Hargs & Hc) Hex.
  unfold apply. rewrite Hv, Hargs. cbn. rewrite Hc. cbn.
  unfold group_constraints.
  by rewrite group_constraints_from_unrecognized.
Qed.

(** C8, as the code has it: [apply] looks neither at the sense of the
    objective nor at the variable blocks after the first, so two problems
    with the same first block, the same first objective argument and the
    same constraints are transformed alike.  What it rejects, before any
    solver call and without returning solver arguments, is a problem whose
    objective steps fail: no variable block, no objective argument, a
    failing coefficient extraction or an empty offset vector. *)
Theorem apply_objective_unchecked (problem : Problem Expr) :
  (∀ problem' : Problem Expr,
     index0 (variables problem') = index0 (variables problem) →
     index0 (args (objective problem')) = index0 (args (objective problem)) →
     constraints problem' = constraints problem →
     apply get_coeff_offset problem' = apply get_coeff_offset problem)
  ∧ (¬ objective_ok get_coeff_offset problem →
     ∃ err, apply get_coeff_offset problem = Raise err)
  ∧ (variables problem = [] →
     apply get_coeff_offset problem = Raise IndexError).
Proof.
  split; [|split].
  - intros problem' Hv Hargs Hcs. unfold apply. by rewrite Hv, Hargs, Hcs.
  - apply apply_objective_not_ok.
  - intros Hv. unfold apply. by rewrite Hv.
Qed.

(** C9: a problem whose constraint list holds a constraint of a kind
    outside equality, inequality, second-order cone and exponential cone
    is never transformed: [apply] returns no solver arguments, so no
    solver call can follow.  When the steps on the objective, which come
    first in [apply], succeed, as they do for the problems of the
    specification's data model, the failure is the [UnsupportedConstraint]
    of the constraint grouping, passed on to the caller. *)
Theorem apply_rejects_unrecognized (problem : Problem Expr) :
  Exists (fun c => constr_type c ∉ [Zero; NonPos; SOC; ExpCone])
    (constraints problem) →
  (∀ data inv_data, apply get_coeff_offset problem ≠ Ok (data, inv_data))
  ∧ (objective_ok get_coeff_offset problem →
     apply get_coeff_offset problem = Raise UnsupportedConstraint).
Proof.
  intros Hex.
  assert (Exists (fun c => recognized (constr_type c) = false)
            (constraints problem)) as Hex'.
  { eapply Exists_impl; [exact Hex|]. intros c Hc. cbn in Hc.
    destruct (constr_type c); try done; destruct Hc;
      rewrite !elem_of_cons; auto. }
  split.
  - intros data inv_data Happly.
    destruct (apply_Ok _ _ _ Happly)
      as (v & vs & obj & objs & c & offset0 & offset & A & b & G & h
          & _ & _ & _ & Hrec & _).
    apply Exists_exists in Hex' as (c' & Hin & Hc').
    rewrite Forall_forall in Hrec. specialize (Hrec c' Hin). congruence.
  - intros Hobj. by apply apply_unrecognized.
Qed.

(** ** The dual scatter *)

Lemma list_ind3 {A : Type} (P : list A → Prop) :
  P [] → (∀ a, P [a]) → (∀ a b, P [a; b]) →
  (∀ a b c l, P l → P (a :: b :: c :: l)) →
  ∀ l, P l.
Proof.
  intros H0 H1 H2 H3 l.
  assert (P l ∧ (∀ a, P (a :: l)) ∧ (∀ a b, P (a :: b :: l))) as [Hl _];
    [|exact Hl].
  induction l as [|r l (IH0 & IH1 & IH2)]; [by repeat split|].
  split; [apply IH1|]. split; [intros a; apply IH2|].
  intros a b. by apply H3.
Qed.

Lemma permute_exp_cone {A : Type} (a b c : A) :
  permute EXP_CONE_ORDER [a; b; c] = [a; c; b].
Proof. reflexivity. Qed.

Lemma unpermute_permute_exp_cone {A : Type} (a b c : A) :
  unpermute EXP_CONE_ORDER (permute EXP_CONE_ORDER [a; b; c]) = [a; b; c].
Proof. reflexivity. Qed.

Lemma each_cone_permute_length {A : Type} (rows : list A) :
  length (each_cone (permute EXP_CONE_ORDER) rows) = length rows.
Proof.
  induction rows as [| | |a b c rows IH] using list_ind3; try done.
  cbn. by rewrite IH.
Qed.

Lemma each_cone_unpermute_permute {A : Type} (rows : list A) :
  each_cone (unpermute EXP_CONE_ORDER) (each_cone (permute EXP_CONE_ORDER) rows)
  = rows.
Proof.
  induction rows as [| | |a b c rows IH] using list_ind3; try done.
  cbn. by rewrite IH.
Qed.

Lemma format_rows_length {A : Type} (c : Constraint Expr) (rows : list A) :
  length (format_rows EXP_CONE_ORDER c rows) = length rows.
Proof.
  unfold format_rows.
  destruct (constr_type c); try done. apply each_cone_permute_length.
Qed.

Lemma restore_format_rows {A : Type} (c : Constraint Expr) (rows : list A) :
  restore_rows EXP_CONE_ORDER c (format_rows EXP_CONE_ORDER c rows) = rows.
Proof.
  unfold restore_rows, format_rows.
  destruct (constr_type c); try done. apply each_cone_unpermute_permute.
Qed.

(** The scatter writes only the identifiers of the constraints it visits. *)
Lemma scatter_other (result_vec : vector) (cs : list (Constraint Expr)) :
  ∀ dual_vars offset k,
    k ∉ constr_id <$> cs →
    (foldl (scatter_step result_vec) (dual_vars, offset) cs).1 !! k
    = dual_vars !! k.
Proof.
  induction cs as [|c cs IH]; intros m off k Hk; [done|].
  rewrite fmap_cons, not_elem_of_cons in Hk. destruct Hk as [Hne Hk].
  cbn. rewrite IH by done. by rewrite lookup_insert_ne.
Qed.

(** Scattering a vector laid out in the solver's order gives every
    constraint its own block, with the rows of exponential cones back in
    the problem's order. *)
Lemma scatter_layout (result_vec : vector) (cs : list (Constraint Expr))
    (ds : list vector) :
  Forall2 (fun c d => length d = num_elems c) cs ds →
  NoDup (constr_id <$> cs) →
  ∀ dual_vars offset rest,
    drop offset result_vec = solver_layout cs ds ++ rest →
    ∀ i c d, cs !! i = Some c → ds !! i = Some d →
      (foldl (scatter_step result_vec) (dual_vars, offset) cs).1 !! constr_id c
      = Some d.
Proof.
  induction 1 as [|c0 d0 cs ds Hlen _ IH]; intros Hnodup m off rest Hdrop i c d Hc Hd;
    [done|].
  rewrite fmap_cons in Hnodup. apply NoDup_cons in Hnodup as [Hfresh Hnodup].
  unfold solver_layout in Hdrop. cbn in Hdrop. rewrite <- app_assoc in Hdrop.
  cbn. rewrite Hdrop.
  rewrite take_app_length' by (by rewrite format_rows_length).
  rewrite restore_format_rows.
  destruct i as [|i]; cbn in Hc, Hd.
  - injection Hc as <-. injection Hd as <-.
    rewrite scatter_other by done. by rewrite lookup_insert_eq.
  - eapply (IH Hnodup _ _ rest); [|exact Hc|exact Hd].
    rewrite <- drop_drop, Hdrop.
    by rewrite drop_app_length' by (by rewrite format_rows_length).
Qed.

Lemma get_dual_values_layout (cs : list (Constraint Expr)) (ds : list vector) :
  Forall2 (fun c d => length d = num_elems c) cs ds →
  NoDup (constr_id <$> cs) →
  ∀ i c d, cs !! i = Some c → ds !! i = Some d →
    get_dual_values (solver_layout cs ds) cs !! constr_id c = Some d.
Proof.
  intros Hlen Hnodup i c d Hc Hd. unfold get_dual_values.
  eapply (scatter_layout _ _ _ Hlen Hnodup _ 0%nat []); [|exact Hc|exact Hd].
  by rewrite app_nil_r.
Qed.

(** The rows of the matrix and the vector that [group_coeff_offset] builds
    are in the solver's layout: the extraction of each constraint, one
    block after the other. *)
Lemma group_coeff_offset_layout (cs : list (Constraint Expr)) M v :
  group_coeff_offset get_coeff_offset cs EXP_CONE_ORDER = Ok (M, v) →
  ∃ blocks,
    Forall2 (fun c blk => get_coeff_offset (expr c) = Ok blk) cs blocks
    ∧ M = concat (zip_with (format_rows EXP_CONE_ORDER) cs blocks.*1)
    ∧ v = solver_layout cs blocks.*2.
Proof.
  intros Hgroup.
  apply group_coeff_offset_Ok in Hgroup as (fblocks & Hfblocks & -> & ->).
  unfold solver_layout.
  induction Hfblocks as [|c fblk cs fblocks Hfblk _ (blocks & Hblocks & HM & Hv)].
  - exists []. by repeat split.
  - unfold format_constr in Hfblk.
    destruct (get_coeff_offset (expr c)) as [[Mc vc]|] eqn:Hc; [|done].
    cbn in Hfblk. injection Hfblk as <-.
    exists ((Mc, vc) :: blocks). split; [by constructor|].
    cbn. by rewrite HM, Hv.
Qed.

(** ** The rows in the solver's order *)

Lemma exp_cone_row_cases (i : nat) :
  ∃ q r, (i = 3 * q + r ∧ r < 3 ∧ i / 3 = q ∧ i mod 3 = r)%nat.
Proof.
  exists (i / 3)%nat, (i mod 3)%nat.
  pose proof (Nat.div_mod_eq i 3). pose proof (Nat.mod_upper_bound i 3). lia.
Qed.

Lemma div_mod_3 (q r : nat) :
  (r < 3 → (3 * q + r) / 3 = q ∧ (3 * q + r) mod 3 = r)%nat.
Proof.
  intros Hr. replace (3 * q + r)%nat with (r + q * 3)%nat by lia.
  rewrite Nat.div_add, Nat.Div0.mod_add by lia.
  rewrite Nat.div_small, Nat.mod_small by lia. lia.
Qed.

Lemma exp_cone_row_involutive (i : nat) : exp_cone_row (exp_cone_row i) = i.
Proof.
  destruct (exp_cone_row_cases i) as (q & r & -> & Hr & Hq & Hm).
  unfold exp_cone_row. rewrite Hq, Hm.
  destruct r as [|[|[|r]]]; try lia.
  - destruct (div_mod_3 q 0) as [-> ->]; lia.
  - destruct (div_mod_3 q 2) as [-> ->]; lia.
  - destruct (div_mod_3 q 1) as [-> ->]; lia.
Qed.

Lemma exp_cone_row_bound (i n : nat) :
  (i < 3 * (n / 3) → exp_cone_row i < 3 * (n / 3))%nat.
Proof.
  destruct (exp_cone_row_cases i) as (q & r & -> & Hr & Hq & Hm).
  unfold exp_cone_row. rewrite Hq, Hm. intros Hi.
  destruct r as [|[|[|r]]]; lia.
Qed.

Lemma exp_cone_row_next (i : nat) :
  exp_cone_row (3 + i) = (3 + exp_cone_row i)%nat.
Proof.
  unfold exp_cone_row. replace (3 + i)%nat with (i + 1 * 3)%nat by lia.
  rewrite Nat.div_add, Nat.Div0.mod_add by lia. lia.
Qed.

Lemma complete_cones_next (n : nat) :
  (3 * ((3 + n) / 3) = 3 + 3 * (n / 3))%nat.
Proof.
  replace (3 + n)%nat with (n + 1 * 3)%nat by lia.
  rewrite Nat.div_add by lia. lia.
Qed.

Lemma complete_cones_le (n : nat) : (3 * (n / 3) ≤ n)%nat.
Proof. pose proof (Nat.div_mod_eq n 3). lia. Qed.

(** Every complete cone has its rows in the solver's order, and the rows
    after the last complete cone stay where they are. *)
Lemma each_cone_permute_lookup {A : Type} (rows : list A) :
  ∀ i,
    ((i < 3 * (length rows / 3))%nat →
     each_cone (permute EXP_CONE_ORDER) rows !! i = rows !! exp_cone_row i)
    ∧ ((3 * (length rows / 3) ≤ i)%nat →
       each_cone (permute EXP_CONE_ORDER) rows !! i = rows !! i).
Proof.
  induction rows as [| | |a b c rows IH] using list_ind3; intros i;
    try (split; [cbn; lia|done]).
  change (length (a :: b :: c :: rows)) with (3 + length rows)%nat.
  rewrite complete_cones_next.
  change (each_cone (permute EXP_CONE_ORDER) (a :: b :: c :: rows))
    with (a :: c :: b :: each_cone (permute EXP_CONE_ORDER) rows).
  destruct i as [|[|[|i]]]; try (split; [done|lia]).
  change (S (S (S i))) with (3 + i)%nat. rewrite exp_cone_row_next.
  destruct (IH i) as [IHlt IHge]. split; intros Hi.
  - apply IHlt. lia.
  - apply IHge. lia.
Qed.

Lemma each_cone_unpermute_eq {A : Type} (rows : list A) :
  each_cone (unpermute EXP_CONE_ORDER) rows
  = each_cone (permute EXP_CONE_ORDER) rows.
Proof.
  induction rows as [| | |a b c rows IH] using list_ind3; try done.
  cbn. by rewrite IH.
Qed.

Lemma solver_row_bound (c : Constraint Expr) (n i : nat) :
  (i < n → solver_row c n i < n)%nat.
Proof.
  unfold solver_row. intros Hi.
  destruct (bool_decide (constr_type c = ExpCone)); cbn [andb]; [|done].
  destruct (Nat.ltb_spec i (3 * (n / 3))) as [Hlt|Hge]; [|done].
  pose proof (exp_cone_row_bound i n Hlt). pose proof (complete_cones_le n). lia.
Qed.

Lemma solver_row_involutive (c : Constraint Expr) (n i : nat) :
  solver_row c n (solver_row c n i) = i.
Proof.
  unfold solver_row.
  destruct (bool_decide (constr_type c = ExpCone)); cbn [andb]; [|done].
  destruct (Nat.ltb_spec i (3 * (n / 3))) as [Hlt|Hge].
  - pose proof (exp_cone_row_bound i n Hlt) as Hlt'.
    apply Nat.ltb_lt in Hlt'. rewrite Hlt'. apply exp_cone_row_involutive.
  - apply Nat.ltb_ge in Hge. by rewrite Hge.
Qed.

Lemma format_rows_lookup {A : Type} (c : Constraint Expr) (rows : list A) i :
  format_rows EXP_CONE_ORDER c rows !! i
  = rows !! solver_row c (length rows) i.
Proof.
  unfold format_rows, solver_row.
  destruct (constr_type c) eqn:Hkind;
    try (rewrite bool_decide_eq_false_2 by done; done).
  rewrite bool_decide_eq_true_2 by done. cbn [andb].
  destruct (each_cone_permute_lookup rows i) as [Hlt Hge].
  destruct (Nat.ltb_spec i (3 * (length rows / 3))); auto.
Qed.

Lemma format_rows_solver_order {A : Type} (c : Constraint Expr)
    (rows : list A) :
  in_solver_order c rows (format_rows EXP_CONE_ORDER c rows).
Proof.
  split; [apply format_rows_length|]. intros i _. apply format_rows_lookup.
Qed.

Lemma restore_rows_format_rows {A : Type} (c : Constraint Expr)
    (rows : list A) :
  restore_rows EXP_CONE_ORDER c rows = format_rows EXP_CONE_ORDER c rows.
Proof.
  unfold restore_rows, format_rows.
  destruct (constr_type c); try done. apply each_cone_unpermute_eq.
Qed.

(** The row that the solver has at position [i] goes back to the position
    it came from. *)
Lemma restore_rows_lookup {A : Type} (c : Constraint Expr) (rows : list A) i :
  restore_rows EXP_CONE_ORDER c rows !! solver_row c (length rows) i
  = rows !! i.
Proof.
  by rewrite restore_rows_format_rows, format_rows_lookup,
    solver_row_involutive.
Qed.

Lemma restore_rows_length {A : Type} (c : Constraint Expr) (rows : list A) :
  length (restore_rows EXP_CONE_ORDER c rows) = length rows.
Proof. rewrite restore_rows_format_rows. apply format_rows_length. Qed.

Lemma format_constr_blocks (cs : list (Constraint Expr)) fblocks :
  Forall2 (fun c blk => format_constr get_coeff_offset EXP_CONE_ORDER c = Ok blk)
    cs fblocks →
  ∃ blocks,
    Forall2 (fun c blk => get_coeff_offset (expr c) = Ok blk) cs blocks
    ∧ Forall3 (fun c blk fblk => in_solver_order c blk.1 fblk.1
                                 ∧ in_solver_order c blk.2 fblk.2)
        cs blocks fblocks.
Proof.
  induction 1 as [|c fblk cs fblocks Hfblk _ (blocks & Hblocks & Horder)].
  - exists []. split; constructor.
  - unfold format_constr in Hfblk.
    destruct (get_coeff_offset (expr c)) as [[M v]|] eqn:Hc; [|done].
    cbn in Hfblk. injection Hfblk as <-.
    exists ((M, v) :: blocks). split; [by constructor|].
    constructor; [|done]. split; apply format_rows_solver_order.
Qed.

(** C3: for a supported problem, which is a problem that [apply]
    transforms ([apply_supported], [apply_Ok_supported]), the list recorded
    as the non-equality constraints is the inequality constraints, then the
    second-order cones, then the exponential cones, each group in its
    order in the problem, and the list recorded as the equality
    constraints is the equality constraints in their order in the problem.
    [A] and [b] are the coefficient extractions of the recorded equality
    constraints, one block of rows after the other in that order.  [G] and
    [h] are, one block of rows after the other in the order of the
    recorded non-equality list, the coefficient extractions of its
    constraints with their rows in the solver's order: unchanged but for
    the three rows of every exponential cone. *)
Theorem apply_constraint_order (problem : Problem Expr) :
  supported_problem get_coeff_offset problem →
  ∃ data inv_data,
    apply get_coeff_offset problem = Ok (data, inv_data)
    ∧ NEQ_CONSTR inv_data
      = filter (fun c => constr_type c = NonPos) (constraints problem)
          ++ filter (fun c => constr_type c = SOC) (constraints problem)
          ++ filter (fun c => constr_type c = ExpCone) (constraints problem)
    ∧ EQ_CONSTR inv_data
      = filter (fun c => constr_type c = Zero) (constraints problem)
    ∧ (∃ blocks,
         Forall2 (fun c blk => get_coeff_offset (expr c) = Ok blk)
           (EQ_CONSTR inv_data) blocks
         ∧ data_A data = concat blocks.*1
         ∧ data_B data = concat blocks.*2)
    ∧ (∃ blocks gblocks,
         Forall2 (fun c blk => get_coeff_offset (expr c) = Ok blk)
           (NEQ_CONSTR inv_data) blocks
         ∧ Forall3 (fun c blk gblk => in_solver_order c blk.1 gblk.1
                                      ∧ in_solver_order c blk.2 gblk.2)
             (NEQ_CONSTR inv_data) blocks gblocks
         ∧ data_G data = concat gblocks.*1
         ∧ data_H data = concat gblocks.*2).
Proof.
  intros Hsup. destruct (apply_supported _ Hsup) as (data & inv_data & Happly).
  exists data, inv_data. split; [done|].
  destruct (apply_Ok _ _ _ Happly)
    as (v & vs & obj & objs & c & offset0 & offset & A & b & G & h
        & _ & _ & _ & _ & HA & HG & -> & ->).
  cbn [NEQ_CONSTR EQ_CONSTR data_A data_B data_G data_H].
  split; [done|]. split; [done|]. split.
  - apply group_coeff_offset_Ok in HA as (blocks & Hblocks & -> & ->).
    exists blocks. split; [|done].
    eapply format_constr_linear_blocks; [|exact Hblocks].
    apply Forall_forall. intros c' Hin.
    apply list_elem_of_filter in Hin as [Hin _]. by rewrite Hin.
  - apply group_coeff_offset_Ok in HG as (gblocks & Hgblocks & -> & ->).
    destruct (format_constr_blocks _ _ Hgblocks) as (blocks & Hblocks & Horder).
    by exists blocks, gblocks.
Qed.

(** Every constraint gets the slice of the vector at its block's position,
    with its rows put back in the problem's order. *)
Lemma scatter_lookup (result_vec : vector) (cs : list (Constraint Expr)) :
  NoDup (constr_id <$> cs) →
  ∀ dual_vars offset i c,
    cs !! i = Some c →
    (foldl (scatter_step result_vec) (dual_vars, offset) cs).1 !! constr_id c
    = Some (restore_rows EXP_CONE_ORDER c
              (take (num_elems c)
                 (drop (offset + block_offset cs i) result_vec))).
Proof.
  induction cs as [|c0 cs IH]; intros Hnodup m off i c Hc; [done|].
  rewrite fmap_cons in Hnodup. apply NoDup_cons in Hnodup as [Hfresh Hnodup].
  destruct i as [|i]; cbn in Hc.
  - injection Hc as <-. cbn. rewrite scatter_other by done.
    rewrite lookup_insert_eq. unfold block_offset. cbn.
    by rewrite Nat.add_0_r.
  - cbn. rewrite (IH Hnodup _ _ i c Hc). unfold block_offset. cbn.
    by rewrite Nat.add_assoc.
Qed.

Lemma get_dual_values_lookup (result_vec : vector)
    (cs : list (Constraint Expr)) i c :
  NoDup (constr_id <$> cs) →
  cs !! i = Some c →
  (block_offset cs i + num_elems c ≤ length result_vec)%nat →
  ∃ d,
    get_dual_values result_vec cs !! constr_id c = Some d
    ∧ length d = num_elems c
    ∧ (∀ k, (k < num_elems c)%nat →
            d !! solver_row c (num_elems c) k
            = result_vec !! (block_offset cs i + k)%nat)
    ∧ (∀ k, (k < num_elems c)%nat →
            d !! k
            = result_vec !! (block_offset cs i + solver_row c (num_elems c) k)%nat).
Proof.
  intros Hnodup Hc Hlen. unfold get_dual_values.
  rewrite (scatter_lookup _ _ Hnodup ∅ 0%nat i c Hc). cbn [Nat.add].
  set (block := take (num_elems c) (drop (block_offset cs i) result_vec)).
  assert (length block = num_elems c) as Hblock.
  { unfold block. rewrite length_take, length_drop. lia. }
  assert (∀ k, (k < num_elems c)%nat →
               block !! k = result_vec !! (block_offset cs i + k)%nat) as Hlookup.
  { intros k Hk. unfold block. rewrite lookup_take_lt by done.
    by rewrite lookup_drop. }
  eexists. split; [done|]. split; [by rewrite restore_rows_length|]. split.
  - intros k Hk. rewrite <- Hblock, restore_rows_lookup. by apply Hlookup.
  - intros k Hk.
    rewrite <- (solver_row_involutive c (num_elems c) k) at 1.
    rewrite <- Hblock at 1. rewrite restore_rows_lookup.
    apply Hlookup. by apply solver_row_bound.
Qed.

(** C2: for a raw result whose status carries a solution, the dual
    variables that [invert] returns hold the scatter of the raw cone-dual
    vector over the recorded non-equality constraints, merged over the
    scatter of the equality duals.  The scatter follows the order of the
    recorded list: every constraint gets the entries of the vector at the
    position of its block, the element counts of the constraints before
    it, and the entry that the solver has at position [k] of the block
    goes back to the row it came from, so entry [k] of an exponential
    cone's dual is the entry at the solver's position for row [k] of the
    cone ([0, 2, 1]) and the other duals are the block unchanged.  When
    the raw vector is the [h] that the forward transform stacks from the
    same list, every constraint gets its own offset vector back; on any
    block of three rows the forward permutation followed by this inverse
    is the identity. *)
Theorem invert_dual_scatter solution (inverse_data : InverseData Expr) st :
  STATUS_MAP !! exitFlag (info solution) = Some st →
  st ∈ SOLUTION_PRESENT →
  ∃ sol,
    invert SOLUTION_PRESENT solution inverse_data = Ok sol
    ∧ dual_vars sol
      = get_dual_values (raw_z solution) (NEQ_CONSTR inverse_data)
          ∪ get_dual_values (raw_y solution) (EQ_CONSTR inverse_data)
    ∧ (NoDup (constr_id <$> NEQ_CONSTR inverse_data) →
       ∀ i c,
         NEQ_CONSTR inverse_data !! i = Some c →
         (block_offset (NEQ_CONSTR inverse_data) i + num_elems c
          ≤ length (raw_z solution))%nat →
         ∃ d,
           dual_vars sol !! constr_id c = Some d
           ∧ length d = num_elems c
           ∧ (∀ k, (k < num_elems c)%nat →
                   d !! solver_row c (num_elems c) k
                   = raw_z solution
                       !! (block_offset (NEQ_CONSTR inverse_data) i + k)%nat)
           ∧ (∀ k, (k < num_elems c)%nat →
                   d !! k
                   = raw_z solution
                       !! (block_offset (NEQ_CONSTR inverse_data) i
                           + solver_row c (num_elems c) k)%nat))
    ∧ (∀ G blocks,
         NoDup (constr_id <$> NEQ_CONSTR inverse_data) →
         Forall2 (fun c blk => get_coeff_offset (expr c) = Ok blk
                               ∧ length blk.2 = num_elems c)
           (NEQ_CONSTR inverse_data) blocks →
         group_coeff_offset get_coeff_offset (NEQ_CONSTR inverse_data)
           EXP_CONE_ORDER = Ok (G, raw_z solution) →
         ∀ i c blk,
           NEQ_CONSTR inverse_data !! i = Some c → blocks !! i = Some blk →
           dual_vars sol !! constr_id c = Some blk.2)
    ∧ (∀ (A : Type) (r0 r1 r2 : A),
         permute EXP_CONE_ORDER [r0; r1; r2] = [r0; r2; r1]
         ∧ unpermute EXP_CONE_ORDER (permute EXP_CONE_ORDER [r0; r1; r2])
           = [r0; r1; r2]).
Proof.
  intros Hst Hin. eexists. split; [by apply invert_present|].
  cbn [dual_vars]. split; [done|]. split; [|split].
  - intros Hnodup i c Hc Hlen.
    destruct (get_dual_values_lookup (raw_z solution) _ i c Hnodup Hc Hlen)
      as (d & Hd & Hlend & Hto & Hfrom).
    exists d. split; [by apply lookup_union_Some_l|]. by repeat split.
  - intros G blocks Hnodup Hblocks Hgroup i c blk Hc Hblk.
    apply lookup_union_Some_l.
    destruct (group_coeff_offset_layout _ _ _ Hgroup)
      as (blocks' & Hblocks' & _ & Hz).
    assert (blocks' = blocks) as ->.
    { clear -Hblocks Hblocks'. revert blocks' Hblocks'.
      induction Hblocks as [|c blk cs blocks [Hblk _] _ IH]; intros blocks' Hblocks';
        inversion Hblocks' as [|? blk' ? blocks'' Hblk' Hrest]; subst; [done|].
      rewrite Hblk in Hblk'. injection Hblk' as <-. f_equal. by apply IH. }
    rewrite Hz.
    eapply (get_dual_values_layout _ blocks.*2 _ Hnodup i c blk.2); [done|].
    by rewrite list_lookup_fmap, Hblk.
    Unshelve.
    clear -Hblocks. induction Hblocks as [|c blk cs blocks [_ Hlen] _ IH];
      constructor; done.
  - intros A r0 r1 r2. split; [apply permute_exp_cone|].
    apply unpermute_permute_exp_cone.
Qed.

End Properties.

(** ** The call of the solver *)

Section Solve.

Variable OptVal : Type.
Variable ecos_solve : EcosCall OptVal -> result RawSolution.

(** C10: [solve_via_data] does not read [warm_start]: for fixed data,
    verbosity and options, any two values of [warm_start] give the same
    call of the opaque solver (or the same refusal of the call), hence the
    same result. *)
Theorem solve_via_data_ignores_warm_start (data : SolverArguments)
    (warm_start warm_start' verbose : bool) (solver_opts : gmap string OptVal) :
  solve_via_data_call data warm_start verbose solver_opts
  = solve_via_data_call data warm_start' verbose solver_opts
  ∧ solve_via_data ecos_solve data warm_start verbose solver_opts
    = solve_via_data ecos_solve data warm_start' verbose solver_opts.
Proof.
  split.
  - unfold solve_via_data_call. by case_bool_decide.
  - unfold solve_via_data, solve_via_data_call. by case_bool_decide.
Qed.

End Solve.

(** ** The properties on the sample inputs *)

Lemma sample_problem_supported :
  supported_problem sample_get_coeff_offset sample_problem.
Proof.
  split.
  - by exists (mkVar 0), [], sample_objective_expr, [], [[2%float]], 5%float, [].
  - repeat constructor; by eexists.
Qed.

Lemma invert_status_totality_witness :
  (∃ sol,
     invert sample_SOLUTION_PRESENT (sample_raw 10 0.25 0.125 7) sample_inverse_data
     = Ok sol
     ∧ sol_status sol = OPTIMAL_INACCURATE)
  ∧ invert sample_SOLUTION_PRESENT (sample_raw 5 0.25 0.125 7) sample_inverse_data
    = Raise (UnknownExitCode 5).
Proof.
  split.
  - apply (proj1 (invert_status_totality SampleExpr sample_SOLUTION_PRESENT
                    (sample_raw 10 0.25 0.125 7) sample_inverse_data)).
    apply (bool_decide_unpack _). by vm_compute.
  - apply (proj2 (invert_status_totality SampleExpr sample_SOLUTION_PRESENT
                    (sample_raw 5 0.25 0.125 7) sample_inverse_data)).
    apply (bool_decide_unpack _). by vm_compute.
Defined.

Lemma sample_cones_ids :
  NoDup (constr_id <$> NEQ_CONSTR sample_inverse_data_cones).
Proof. apply (bool_decide_unpack _). by vm_compute. Qed.

Lemma invert_dual_scatter_witness :
  STATUS_MAP !! 0 = Some OPTIMAL
  ∧ OPTIMAL ∈ sample_SOLUTION_PRESENT
  ∧ ∃ sol,
      invert sample_SOLUTION_PRESENT sample_raw_cones sample_inverse_data_cones
      = Ok sol
      ∧ (∃ d, dual_vars sol !! 15 = Some d
              ∧ length d = 4%nat
              ∧ d !! 0%nat = Some 7%float ∧ d !! 1%nat = Some 8%float
              ∧ d !! 2%nat = Some 9%float ∧ d !! 3%nat = Some 10%float)
      ∧ (∃ d, dual_vars sol !! 14 = Some d
              ∧ length d = 6%nat
              ∧ d !! 0%nat = Some 20%float ∧ d !! 1%nat = Some 22%float
              ∧ d !! 2%nat = Some 21%float ∧ d !! 3%nat = Some 23%float
              ∧ d !! 4%nat = Some 25%float ∧ d !! 5%nat = Some 24%float)
      ∧ (∃ d, dual_vars sol !! 17 = Some d
              ∧ length d = 3%nat
              ∧ d !! 0%nat = Some 26%float ∧ d !! 1%nat = Some 28%float
              ∧ d !! 2%nat = Some 27%float).
Proof.
  assert (OPTIMAL ∈ sample_SOLUTION_PRESENT) as Hin.
  { apply (bool_decide_unpack _). by vm_compute. }
  split; [reflexivity|]. split; [exact Hin|].
  destruct (invert_dual_scatter SampleExpr sample_get_coeff_offset
              sample_SOLUTION_PRESENT sample_raw_cones
              sample_inverse_data_cones OPTIMAL eq_refl Hin)
    as (sol & Hsol & _ & Hscatter & _).
  specialize (Hscatter sample_cones_ids).
  exists sol. split; [exact Hsol|]. split; [|split].
  - destruct (Hscatter 1%nat sample_leq_b eq_refl)
      as (d & Hd & Hlen & _ & Hfrom).
    { apply (bool_decide_unpack _). by vm_compute. }
    exists d. split; [exact Hd|]. split; [exact Hlen|].
    repeat split;
      (rewrite Hfrom; [reflexivity|apply (bool_decide_unpack _); by vm_compute]).
  - destruct (Hscatter 4%nat sample_exp_a eq_refl)
      as (d & Hd & Hlen & _ & Hfrom).
    { apply (bool_decide_unpack _). by vm_compute. }
    exists d. split; [exact Hd|]. split; [exact Hlen|].
    repeat split;
      (rewrite Hfrom; [reflexivity|apply (bool_decide_unpack _); by vm_compute]).
  - destruct (Hscatter 5%nat sample_exp_b eq_refl)
      as (d & Hd & Hlen & _ & Hfrom).
    { apply (bool_decide_unpack _). by vm_compute. }
    exists d. split; [exact Hd|]. split; [exact Hlen|].
    repeat split;
      (rewrite Hfrom; [reflexivity|apply (bool_decide_unpack _); by vm_compute]).
Defined.

Lemma sample_problem_cones_supported :
  supported_problem sample_get_coeff_offset sample_problem_cones.
Proof.
  split.
  - by exists (mkVar 0), [], sample_objective_expr, [], [[2%float]], 5%float, [].
  - repeat constructor; by eexists.
Qed.

Lemma apply_constraint_order_witness :
  supported_problem sample_get_coeff_offset sample_problem_cones
  ∧ ∃ data inv_data,
      apply sample_get_coeff_offset sample_problem_cones = Ok (data, inv_data)
      ∧ NEQ_CONSTR inv_data
        = [sample_leq_a; sample_leq_b; sample_soc_a; sample_soc_b;
           sample_exp_a; sample_exp_b]
      ∧ EQ_CONSTR inv_data = [sample_eq_a; sample_eq_b]
      ∧ data_A data = [[1%float]; [2%float]; [5%float]]
      ∧ data_B data = [3%float; 4%float; 6%float]
      ∧ data_G data
        = [[10%float]; [11%float]; [12%float]; [13%float]; [14%float];
           [15%float];
           [20%float]; [21%float]; [22%float]; [23%float];
           [30%float]; [31%float]; [32%float]; [33%float]; [34%float];
           [40%float]; [41%float]; [42%float]; [43%float];
           [50%float]; [52%float]; [51%float]; [53%float]; [55%float];
           [54%float];
           [60%float]; [62%float]; [61%float]]
      ∧ data_H data
        = [110%float; 111%float; 112%float; 113%float; 114%float; 115%float;
           120%float; 121%float; 122%float; 123%float;
           130%float; 131%float; 132%float; 133%float; 134%float;
           140%float; 141%float; 142%float; 143%float;
           150%float; 152%float; 151%float; 153%float; 155%float; 154%float;
           160%float; 162%float; 161%float].
Proof.
  split; [exact sample_problem_cones_supported|].
  destruct (apply_constraint_order SampleExpr sample_get_coeff_offset
              sample_problem_cones sample_problem_cones_supported)
    as (data & inv_data & Happly & Hneq & Heq & _ & _).
  exists data, inv_data. split; [exact Happly|].
  split; [rewrite Hneq; reflexivity|]. split; [rewrite Heq; reflexivity|].
  pose proof Happly as Hdata. vm_compute in Hdata.
  injection Hdata as <- _. by repeat split.
Defined.

Lemma invert_failure_drops_attr_witness :
  STATUS_MAP !! (-1) = Some SOLVER_ERROR
  ∧ (SOLVER_ERROR ∉ sample_SOLUTION_PRESENT)
  ∧ ∃ sol,
      invert sample_SOLUTION_PRESENT (sample_raw (-1) 0.25 0.125 7)
        sample_inverse_data = Ok sol
      ∧ attr sol !! SOLVE_TIME = None
      ∧ attr sol !! SETUP_TIME = None
      ∧ attr sol !! NUM_ITERS = None.
Proof.
  assert (SOLVER_ERROR ∉ sample_SOLUTION_PRESENT) as Hout.
  { apply (bool_decide_unpack _). by vm_compute. }
  split; [reflexivity|]. split; [exact Hout|].
  destruct (invert_failure_drops_attr SampleExpr sample_SOLUTION_PRESENT
              (sample_raw (-1) 0.25 0.125 7) sample_inverse_data SOLVER_ERROR
              eq_refl Hout)
    as (sol & Hsol & Hsolve & Hsetup & Hiters & _).
  by exists sol.
Defined.

Lemma offset_correct_witness :
  supported_problem sample_get_coeff_offset sample_problem
  ∧ ∃ data inv_data,
      apply sample_get_coeff_offset sample_problem = Ok (data, inv_data)
      ∧ inv_OFFSET inv_data = 5%float
      ∧ ∃ sol,
          invert sample_SOLUTION_PRESENT (sample_raw 0 0.25 0.125 7) inv_data
          = Ok sol
          ∧ opt_val sol = Some 8%float.
Proof.
  split; [exact sample_problem_supported|].
  destruct (offset_correct SampleExpr sample_get_coeff_offset
              sample_SOLUTION_PRESENT sample_problem sample_problem_supported)
    as (data & inv_data & obj & c & offset & Happly & Hobj & Hc & Hoff & Hopt).
  exists data, inv_data. split; [exact Happly|].
  injection Hobj as <-. injection Hc as <- <-. injection Hoff as Hoff.
  split; [by rewrite <- Hoff|].
  destruct (Hopt (sample_raw 0 0.25 0.125 7) OPTIMAL eq_refl) as (sol & Hsol & Hval).
  { apply (bool_decide_unpack _). by vm_compute. }
  exists sol. split; [exact Hsol|]. rewrite Hval, <- Hoff. reflexivity.
Defined.

Lemma invert_failure_solution_witness :
  STATUS_MAP !! 1 = Some INFEASIBLE
  ∧ (INFEASIBLE ∉ sample_SOLUTION_PRESENT)
  ∧ ∃ sol,
      invert sample_SOLUTION_PRESENT (sample_raw 1 0.25 0.125 7)
        sample_inverse_data = Ok sol
      ∧ sol = failure_solution INFEASIBLE
      ∧ sol_status sol = INFEASIBLE
      ∧ primal_vars sol = ∅
      ∧ dual_vars sol = ∅
      ∧ opt_val sol = None.
Proof.
  assert (INFEASIBLE ∉ sample_SOLUTION_PRESENT) as Hout.
  { apply (bool_decide_unpack _). by vm_compute. }
  split; [reflexivity|]. split; [exact Hout|].
  exact (invert_failure_solution SampleExpr sample_SOLUTION_PRESENT
           (sample_raw 1 0.25 0.125 7) sample_inverse_data INFEASIBLE
           eq_refl Hout).
Defined.

Lemma apply_dims_witness :
  supported_problem sample_get_coeff_offset sample_problem_cones
  ∧ ∃ data inv_data,
      apply sample_get_coeff_offset sample_problem_cones = Ok (data, inv_data)
      ∧ dims_l (data_DIMS data) = 10
      ∧ dims_q (data_DIMS data) = [3; 2; 4]%nat
      ∧ dims_e (data_DIMS data) = 3%nat.
Proof.
  split; [exact sample_problem_cones_supported|].
  destruct (apply_dims SampleExpr sample_get_coeff_offset
              sample_problem_cones sample_problem_cones_supported)
    as (data & inv_data & Happly & Hl & Hq & He).
  { by vm_compute. }
  exists data, inv_data. split; [exact Happly|].
  rewrite Hl, Hq, He. by repeat split.
Defined.

(** The claim C8 fails on a maximization over two variable blocks: [apply]
    returns solver arguments for it, the ones of the minimization over the
    first block. *)
Lemma apply_accepts_maximize :
  sense (objective sample_maximize) = Maximize
  ∧ length (variables sample_maximize) = 2%nat
  ∧ apply sample_get_coeff_offset sample_maximize
    = apply sample_get_coeff_offset sample_problem
  ∧ (∃ data inv_data,
       apply sample_get_coeff_offset sample_maximize = Ok (data, inv_data))
  ∧ ∀ err, apply sample_get_coeff_offset sample_maximize ≠ Raise err.
Proof.
  split; [reflexivity|]. split; [reflexivity|]. split; [reflexivity|].
  split; [by eexists _, _|]. intros err. by vm_compute.
Qed.

Lemma apply_objective_unchecked_witness :
  apply sample_get_coeff_offset sample_maximize
  = apply sample_get_coeff_offset sample_problem
  ∧ apply sample_get_coeff_offset sample_no_variable = Raise IndexError.
Proof.
  split.
  - by apply (proj1 (apply_objective_unchecked SampleExpr sample_get_coeff_offset
                       sample_problem) sample_maximize).
  - by apply (proj2 (proj2 (apply_objective_unchecked SampleExpr
                              sample_get_coeff_offset sample_no_variable))).
Defined.

Lemma apply_rejects_unrecognized_witness :
  Exists (fun c => constr_type c ∉ [Zero; NonPos; SOC; ExpCone])
    (constraints sample_unsupported)
  ∧ apply sample_get_coeff_offset sample_unsupported
    = Raise UnsupportedConstraint
  ∧ apply sample_get_coeff_offset sample_unsupported_first
    = Raise UnsupportedConstraint.
Proof.
  assert (Other "PSD" ∉ [Zero; NonPos; SOC; ExpCone]) as Hkind.
  { apply (bool_decide_unpack _). by vm_compute. }
  assert (objective_ok sample_get_coeff_offset sample_unsupported) as Hobj.
  { by exists (mkVar 0), [], sample_objective_expr, [], [[2%float]], 5%float, []. }
  assert (Exists (fun c : Constraint SampleExpr =>
                    constr_type c ∉ [Zero; NonPos; SOC; ExpCone])
            (constraints sample_unsupported)) as Hex.
  { apply Exists_cons_tl, Exists_cons_hd. exact Hkind. }
  assert (Exists (fun c : Constraint SampleExpr =>
                    constr_type c ∉ [Zero; NonPos; SOC; ExpCone])
            (constraints sample_unsupported_first)) as Hex'.
  { apply Exists_cons_hd. exact Hkind. }
  split; [exact Hex|]. split.
  - apply (proj2 (apply_rejects_unrecognized SampleExpr sample_get_coeff_offset
                    sample_unsupported Hex)).
    exact Hobj.
  - apply (proj2 (apply_rejects_unrecognized SampleExpr sample_get_coeff_offset
                    sample_unsupported_first Hex')).
    exact Hobj.
Defined.

(** * Further properties of the code *)

Section Further.

Variable Expr : Type.
Variable get_coeff_offset : Expr -> result (matrix * vector).
Variable SOLUTION_PRESENT : list status.

Implicit Types (solution : RawSolution) (inverse_data : InverseData Expr).

(** ** The status of a returned solution *)

Lemma STATUS_MAP_inv (code : Z) (st : status) :
  STATUS_MAP !! code = Some st →
  (code, st) ∈
    [ (0, OPTIMAL); (1, INFEASIBLE); (2, UNBOUNDED);
      (10, OPTIMAL_INACCURATE); (11, INFEASIBLE_INACCURATE);
      (12, UNBOUNDED_INACCURATE); (-1, SOLVER_ERROR); (-2, SOLVER_ERROR);
      (-3, SOLVER_ERROR); (-4, SOLVER_ERROR); (-7, SOLVER_ERROR) ].
Proof. intros Hst. by apply elem_of_list_to_map_2 in Hst. Qed.

Lemma invert_Ok_inv solution inverse_data sol :
  invert SOLUTION_PRESENT solution inverse_data = Ok sol →
  STATUS_MAP !! exitFlag (info solution) = Some (sol_status sol).
Proof.
  unfold invert.
  destruct (STATUS_MAP !! exitFlag (info solution)) as [st|]; [|done].
  case_bool_decide; by intros [= <-].
Qed.

(** X1: whenever [invert] returns a solution, its status is the solver
    error exactly when the exit code of the raw result is negative, and
    the exit code lies between -7 and 12. *)
Theorem invert_solver_error_iff_negative solution inverse_data sol :
  invert SOLUTION_PRESENT solution inverse_data = Ok sol →
  (sol_status sol = SOLVER_ERROR ↔ exitFlag (info solution) < 0)
  ∧ -7 ≤ exitFlag (info solution) ≤ 12.
Proof.
  intros Hsol. apply invert_Ok_inv, STATUS_MAP_inv in Hsol.
  rewrite !elem_of_cons, elem_of_nil in Hsol.
  repeat destruct Hsol as [Hsol|Hsol]; try done;
    injection Hsol as -> ->; (split; [split; [try done; lia|try done; lia]|lia]).
Qed.

(** X2: the exit codes 0, 1 and 2 offset by 10 give the inaccurate variant
    of the status of the code itself, which is another status. *)
Theorem invert_inaccurate_offset solution solution' inverse_data :
  0 ≤ exitFlag (info solution) ≤ 2 →
  exitFlag (info solution') = exitFlag (info solution) + 10 →
  ∃ sol sol',
    invert SOLUTION_PRESENT solution inverse_data = Ok sol
    ∧ invert SOLUTION_PRESENT solution' inverse_data = Ok sol'
    ∧ sol_status sol' = inaccurate (sol_status sol)
    ∧ sol_status sol' ≠ sol_status sol.
Proof.
  intros Hcode Hcode'.
  assert (exitFlag (info solution) = 0 ∨ exitFlag (info solution) = 1
          ∨ exitFlag (info solution) = 2) as Hcases by lia.
  destruct Hcases as [H0|[H1|H2]].
  - destruct (invert_status Expr SOLUTION_PRESENT solution inverse_data OPTIMAL)
      as (sol & Hsol & Hst); [by rewrite H0|].
    destruct (invert_status Expr SOLUTION_PRESENT solution' inverse_data
                OPTIMAL_INACCURATE) as (sol' & Hsol' & Hst');
      [by rewrite Hcode', H0|].
    exists sol, sol'. by rewrite Hst, Hst'.
  - destruct (invert_status Expr SOLUTION_PRESENT solution inverse_data INFEASIBLE)
      as (sol & Hsol & Hst); [by rewrite H1|].
    destruct (invert_status Expr SOLUTION_PRESENT solution' inverse_data
                INFEASIBLE_INACCURATE) as (sol' & Hsol' & Hst');
      [by rewrite Hcode', H1|].
    exists sol, sol'. by rewrite Hst, Hst'.
  - destruct (invert_status Expr SOLUTION_PRESENT solution inverse_data UNBOUNDED)
      as (sol & Hsol & Hst); [by rewrite H2|].
    destruct (invert_status Expr SOLUTION_PRESENT solution' inverse_data
                UNBOUNDED_INACCURATE) as (sol' & Hsol' & Hst');
      [by rewrite Hcode', H2|].
    exists sol, sol'. by rewrite Hst, Hst'.
Qed.

(** ** The solution returned when one is present *)

(** X3: for a status that carries a solution, the solution returned has an
    optimal value and holds under the three attribute keys the solve time,
    the setup time and the iteration count of the raw result, so two raw
    results that give the same solution have the same timings and
    iteration count. *)
Theorem invert_present_attributes solution solution' inverse_data st sol :
  STATUS_MAP !! exitFlag (info solution) = Some st →
  st ∈ SOLUTION_PRESENT →
  invert SOLUTION_PRESENT solution inverse_data = Ok sol →
  is_Some (opt_val sol)
  ∧ attr sol !! SOLVE_TIME = Some (AFloat (tsolve (timing (info solution))))
  ∧ attr sol !! SETUP_TIME = Some (AFloat (tsetup (timing (info solution))))
  ∧ attr sol !! NUM_ITERS = Some (AInt (iter (info solution)))
  ∧ (invert SOLUTION_PRESENT solution' inverse_data = Ok sol →
     tsolve (timing (info solution')) = tsolve (timing (info solution))
     ∧ tsetup (timing (info solution')) = tsetup (timing (info solution))
     ∧ iter (info solution') = iter (info solution)).
Proof.
  intros Hst Hin Hsol.
  destruct (invert_present_attr Expr SOLUTION_PRESENT solution inverse_data st
              Hst Hin) as (sol0 & Hsol0 & Hsolve & Hsetup & Hiters).
  rewrite Hsol in Hsol0. injection Hsol0 as <-.
  split.
  { pose proof Hsol as Hval.
    rewrite (invert_present Expr SOLUTION_PRESENT _ _ _ Hst Hin) in Hval.
    injection Hval as <-. by eexists. }
  repeat (split; [done|]).
  intros Hsol'. pose proof (invert_Ok_inv _ _ _ Hsol') as Hst'.
  pose proof (invert_Ok_inv _ _ _ Hsol) as Hst0.
  rewrite Hst in Hst0. injection Hst0 as Hst0. rewrite <- Hst0 in Hst'.
  destruct (invert_present_attr Expr SOLUTION_PRESENT solution' inverse_data st
              Hst' Hin) as (sol1 & Hsol1 & Hsolve' & Hsetup' & Hiters').
  rewrite Hsol' in Hsol1. injection Hsol1 as <-.
  rewrite Hsolve in Hsolve'. rewrite Hsetup in Hsetup'. rewrite Hiters in Hiters'.
  injection Hsolve' as ->. injection Hsetup' as ->. injection Hiters' as ->.
  done.
Qed.

(** X4: in the dual variables returned, an identifier that the scatter of
    the cone duals binds has the value from that scatter, also when the
    scatter of the equality duals binds it too; any other identifier has
    the value from the scatter of the equality duals, if any. *)
Theorem invert_dual_merge solution inverse_data st sol :
  STATUS_MAP !! exitFlag (info solution) = Some st →
  st ∈ SOLUTION_PRESENT →
  invert SOLUTION_PRESENT solution inverse_data = Ok sol →
  ∀ k,
    dual_vars sol !! k
    = match get_dual_values (raw_z solution) (NEQ_CONSTR inverse_data) !! k with
      | Some d => Some d
      | None => get_dual_values (raw_y solution) (EQ_CONSTR inverse_data) !! k
      end.
Proof.
  intros Hst Hin Hsol k.
  rewrite (invert_present Expr SOLUTION_PRESENT _ _ _ Hst Hin) in Hsol.
  injection Hsol as <-. cbn. rewrite lookup_union.
  destruct (get_dual_values (raw_z solution) (NEQ_CONSTR inverse_data) !! k),
    (get_dual_values (raw_y solution) (EQ_CONSTR inverse_data) !! k); done.
Qed.

(** X11: [invert] reads the inverse data on the path of a present
    solution only: when the exit code is unknown or its status carries no
    solution, the outcome is the same for any two inverse data. *)
Theorem invert_absent_ignores_inverse_data solution inverse_data inverse_data' :
  (∀ st, STATUS_MAP !! exitFlag (info solution) = Some st →
         st ∉ SOLUTION_PRESENT) →
  invert SOLUTION_PRESENT solution inverse_data'
  = invert SOLUTION_PRESENT solution inverse_data.
Proof.
  intros Habsent. unfold invert.
  destruct (STATUS_MAP !! exitFlag (info solution)) as [st|]; [|done].
  by rewrite bool_decide_eq_false_2 by (by apply Habsent).
Qed.

(** ** The failures of [apply] on the objective *)

(** X5: the steps of [apply] on the objective fail in their order in the
    code and whatever the constraints are: without variable block the
    failure is [IndexError]; with one and without objective argument it is
    [IndexError]; a failure of the coefficient extraction of the
    objective's argument is passed on unchanged; an empty offset vector
    gives [IndexError]. *)
Theorem apply_objective_errors (problem : Problem Expr) :
  (variables problem = [] →
   apply get_coeff_offset problem = Raise IndexError)
  ∧ (∀ v vs, variables problem = v :: vs →
       args (objective problem) = [] →
       apply get_coeff_offset problem = Raise IndexError)
  ∧ (∀ v vs obj objs err, variables problem = v :: vs →
       args (objective problem) = obj :: objs →
       get_coeff_offset obj = Raise err →
       apply get_coeff_offset problem = Raise err)
  ∧ (∀ v vs obj objs c, variables problem = v :: vs →
       args (objective problem) = obj :: objs →
       get_coeff_offset obj = Ok (c, []) →
       apply get_coeff_offset problem = Raise IndexError).
Proof.
  unfold apply. repeat split.
  - intros Hv. by rewrite Hv.
  - intros v vs Hv Hargs. by rewrite Hv, Hargs.
  - intros v vs obj objs err Hv Hargs Herr. rewrite Hv, Hargs. cbn. by rewrite Herr.
  - intros v vs obj objs c Hv Hargs Hc. rewrite Hv, Hargs. cbn. by rewrite Hc.
Qed.

(** ** The constraints that [apply] records *)

Lemma of_kind_partition (cs : list (Constraint Expr)) :
  Forall (fun c => recognized (constr_type c) = true) cs →
  of_kind Zero cs ++ of_kind NonPos cs ++ of_kind SOC cs ++ of_kind ExpCone cs
  ≡ₚ cs.
Proof.
  induction 1 as [|c cs Hc _ IH]; [done|].
  unfold of_kind in *. rewrite !filter_cons.
  destruct (constr_type c) eqn:Hkind; try done;
    repeat (case_decide; try done); cbn.
  - by rewrite IH.
  - rewrite <- Permutation_middle. by rewrite IH.
  - rewrite !(app_assoc _ _ (c :: _)), <- Permutation_middle.
    rewrite <- !app_assoc. by rewrite IH.
  - rewrite !(app_assoc _ _ (c :: _)), <- Permutation_middle.
    rewrite <- !app_assoc. by rewrite IH.
Qed.

(** X6: for a supported problem the two lists that [apply] records hold
    every constraint of the problem exactly once between them: together
    they are a permutation of the problem's constraints, the equality list
    holds only equality constraints, and the other list none. *)
Theorem apply_partition (problem : Problem Expr) :
  supported_problem get_coeff_offset problem →
  ∃ data inv_data,
    apply get_coeff_offset problem = Ok (data, inv_data)
    ∧ EQ_CONSTR inv_data ++ NEQ_CONSTR inv_data ≡ₚ constraints problem
    ∧ Forall (fun c => constr_type c = Zero) (EQ_CONSTR inv_data)
    ∧ Forall (fun c => constr_type c ∈ [NonPos; SOC; ExpCone])
        (NEQ_CONSTR inv_data).
Proof.
  intros Hsup.
  destruct (apply_supported Expr get_coeff_offset _ Hsup)
    as (data & inv_data & Happly).
  exists data, inv_data. split; [done|].
  destruct (apply_Ok Expr get_coeff_offset _ _ _ Happly)
    as (v & vs & obj & objs & c & offset0 & offset & A & b & G & h
        & _ & _ & _ & Hrec & _ & _ & _ & ->).
  cbn. split; [by apply of_kind_partition|]. split.
  - apply Forall_forall. intros c' Hc'.
    by apply list_elem_of_filter in Hc' as [Hkind _].
  - rewrite !Forall_app. repeat split; apply Forall_forall; intros c' Hc';
      apply list_elem_of_filter in Hc' as [Hkind _]; rewrite Hkind;
      rewrite !elem_of_cons; auto.
Qed.

(** X10: [apply] reads the constraints through their groups only: two
    problems with the same objective and variables, whose constraints are
    all of recognised kinds and are the same, in the same order, within
    each supported kind, are transformed alike, however the kinds are
    interleaved. *)
Theorem apply_depends_on_groups (problem problem' : Problem Expr) :
  objective problem' = objective problem →
  variables problem' = variables problem →
  Forall (fun c => recognized (constr_type c) = true) (constraints problem) →
  Forall (fun c => recognized (constr_type c) = true) (constraints problem') →
  (∀ t, t ∈ SUPPORTED_CONSTRAINTS →
        of_kind t (constraints problem') = of_kind t (constraints problem)) →
  apply get_coeff_offset problem' = apply get_coeff_offset problem.
Proof.
  intros Hobj Hvars Hrec Hrec' Hkinds.
  destruct (group_constraints_recognized Expr _ Hrec) as (m & Hm & Hk).
  destruct (group_constraints_recognized Expr _ Hrec') as (m' & Hm' & Hk').
  assert (∀ t, t ∈ SUPPORTED_CONSTRAINTS → m' t = m t) as Heq.
  { intros t Ht. rewrite Hk, Hk'. by apply Hkinds. }
  unfold apply. rewrite Hobj, Hvars, Hm, Hm'.
  destruct (index0 (variables problem)) as [v|]; cbn; [|done].
  destruct (index0 (args (objective problem))) as [obj|]; cbn; [|done].
  destruct (get_coeff_offset obj) as [[c offset]|]; cbn; [|done].
  destruct (index0 offset) as [offset0|]; cbn; [|done].
  rewrite (Heq Zero), (Heq NonPos), (Heq SOC), (Heq ExpCone); [done|..];
    unfold SUPPORTED_CONSTRAINTS, ConicSolver_SUPPORTED_CONSTRAINTS; cbn;
    rewrite !elem_of_cons; auto.
Qed.

(** ** [apply] followed by [invert] *)

(** X9: for a supported problem and a raw result whose status carries a
    solution, [invert] on the inverse data of [apply] returns the raw
    primal vector, unmodified, under the identifier of the problem's first
    variable block, and nothing under any other identifier. *)
Theorem apply_invert_primal (problem : Problem Expr) :
  supported_problem get_coeff_offset problem →
  ∃ data inv_data v,
    apply get_coeff_offset problem = Ok (data, inv_data)
    ∧ variables problem !! 0%nat = Some v
    ∧ ∀ solution st,
        STATUS_MAP !! exitFlag (info solution) = Some st →
        st ∈ SOLUTION_PRESENT →
        ∃ sol,
          invert SOLUTION_PRESENT solution inv_data = Ok sol
          ∧ primal_vars sol !! var_id v = Some (raw_x solution)
          ∧ ∀ k, k ≠ var_id v → primal_vars sol !! k = None.
Proof.
  intros Hsup.
  destruct (apply_supported Expr get_coeff_offset _ Hsup)
    as (data & inv_data & Happly).
  destruct (apply_Ok Expr get_coeff_offset _ _ _ Happly)
    as (v & vs & obj & objs & c & offset0 & offset & A & b & G & h
        & Hv & _ & _ & _ & _ & _ & _ & Hinv).
  exists data, inv_data, v. split; [done|]. split; [by rewrite Hv|].
  intros solution st Hst Hin. eexists.
  split; [by apply invert_present|]. rewrite Hinv. cbn [primal_vars VAR_ID].
  split.
  - by rewrite lookup_singleton_eq.
  - intros k Hk. by rewrite lookup_singleton_ne.
Qed.

End Further.

(** ** Further properties of the call of the solver *)

Section FurtherSolve.

Variable OptVal : Type.
Variable ecos_solve : EcosCall OptVal -> result RawSolution.

(** X7: when the options hold the key [verbose], the keyword is given
    twice and the call fails with [TypeError] whatever the solver is;
    otherwise the result is the solver's, failures included, on the six
    arrays of the data, the verbosity flag and the options as they were
    given. *)
Theorem solve_via_data_verbose_option (data : SolverArguments)
    (warm_start verbose : bool) (solver_opts : gmap string OptVal) :
  (is_Some (solver_opts !! "verbose") →
   solve_via_data ecos_solve data warm_start verbose solver_opts
   = Raise TypeError)
  ∧ (solver_opts !! "verbose" = None →
     solve_via_data ecos_solve data warm_start verbose solver_opts
     = ecos_solve
         (mkEcosCall (data_C data) (data_G data) (data_H data)
            (data_DIMS data) (data_A data) (data_B data) solver_opts verbose)).
Proof.
  unfold solve_via_data, solve_via_data_call. split.
  - intros Hsome. rewrite bool_decide_eq_true_2; [done|]. by apply elem_of_dom.
  - intros Hnone. rewrite bool_decide_eq_false_2; [done|].
    by apply not_elem_of_dom.
Qed.

(** X8: the objective offset is not among the arguments of the solver:
    [solve_via_data] gives the same result on two data that differ in
    [data[s.OFFSET]] only. *)
Theorem solve_via_data_ignores_offset (data : SolverArguments)
    (offset' : vector) (warm_start verbose : bool)
    (solver_opts : gmap string OptVal) :
  solve_via_data ecos_solve
    (mkSolverArguments (data_C data) offset' (data_A data) (data_B data)
       (data_DIMS data) (data_G data) (data_H data))
    warm_start verbose solver_opts
  = solve_via_data ecos_solve data warm_start verbose solver_opts.
Proof.
  unfold solve_via_data, solve_via_data_call. by case_bool_decide.
Qed.

End FurtherSolve.

(** ** The further properties on the sample inputs *)

Lemma invert_solver_error_iff_negative_witness :
  invert sample_SOLUTION_PRESENT (sample_raw (-4) 0.25 0.125 7) sample_inverse_data
  = Ok (failure_solution SOLVER_ERROR)
  ∧ (sol_status (failure_solution SOLVER_ERROR) = SOLVER_ERROR ↔ -4 < 0).
Proof.
  split; [reflexivity|].
  exact (proj1 (invert_solver_error_iff_negative SampleExpr sample_SOLUTION_PRESENT
                  (sample_raw (-4) 0.25 0.125 7) sample_inverse_data
                  (failure_solution SOLVER_ERROR) eq_refl)).
Defined.

Lemma invert_inaccurate_offset_witness :
  ∃ sol sol',
    invert sample_SOLUTION_PRESENT (sample_raw 2 0.25 0.125 7) sample_inverse_data
    = Ok sol
    ∧ invert sample_SOLUTION_PRESENT (sample_raw 12 0.25 0.125 7)
        sample_inverse_data = Ok sol'
    ∧ sol_status sol' = inaccurate (sol_status sol)
    ∧ sol_status sol' ≠ sol_status sol.
Proof.
  apply (invert_inaccurate_offset SampleExpr sample_SOLUTION_PRESENT
           (sample_raw 2 0.25 0.125 7) (sample_raw 12 0.25 0.125 7)
           sample_inverse_data).
  - cbn. lia.
  - reflexivity.
Defined.

Lemma sample_OPTIMAL_present : OPTIMAL ∈ sample_SOLUTION_PRESENT.
Proof. apply (bool_decide_unpack _). by vm_compute. Qed.

Lemma invert_present_attributes_witness :
  ∃ sol,
    invert sample_SOLUTION_PRESENT (sample_raw 0 0.25 0.125 7) sample_inverse_data
    = Ok sol
    ∧ attr sol !! SOLVE_TIME = Some (AFloat 0.25)
    ∧ attr sol !! SETUP_TIME = Some (AFloat 0.125)
    ∧ attr sol !! NUM_ITERS = Some (AInt 7).
Proof.
  destruct (invert sample_SOLUTION_PRESENT (sample_raw 0 0.25 0.125 7)
              sample_inverse_data) as [sol|] eqn:Hsol; [|discriminate].
  exists sol. split; [reflexivity|].
  destruct (invert_present_attributes SampleExpr sample_SOLUTION_PRESENT
              (sample_raw 0 0.25 0.125 7) (sample_raw 0 0.25 0.125 7)
              sample_inverse_data OPTIMAL sol eq_refl sample_OPTIMAL_present
              Hsol) as (_ & Hsolve & Hsetup & Hiters & _).
  by repeat split.
Defined.

Lemma invert_dual_merge_witness :
  ∃ sol,
    invert sample_SOLUTION_PRESENT (sample_raw 0 0.25 0.125 7) sample_inverse_data
    = Ok sol
    ∧ dual_vars sol !! 1 = Some [1.5%float]
    ∧ dual_vars sol !! 3 = Some [20%float; 21%float]
    ∧ dual_vars sol !! 8 = None.
Proof.
  destruct (invert sample_SOLUTION_PRESENT (sample_raw 0 0.25 0.125 7)
              sample_inverse_data) as [sol|] eqn:Hsol; [|discriminate].
  exists sol. split; [reflexivity|].
  pose proof (invert_dual_merge SampleExpr sample_SOLUTION_PRESENT
                (sample_raw 0 0.25 0.125 7) sample_inverse_data OPTIMAL sol
                eq_refl sample_OPTIMAL_present Hsol) as Hmerge.
  split; [|split].
  - rewrite (Hmerge 1). reflexivity.
  - rewrite (Hmerge 3). reflexivity.
  - rewrite (Hmerge 8). reflexivity.
Defined.

Lemma invert_absent_ignores_inverse_data_witness :
  invert sample_SOLUTION_PRESENT (sample_raw 2 0.25 0.125 7) sample_inverse_data'
  = invert sample_SOLUTION_PRESENT (sample_raw 2 0.25 0.125 7) sample_inverse_data.
Proof.
  apply (invert_absent_ignores_inverse_data SampleExpr sample_SOLUTION_PRESENT
           (sample_raw 2 0.25 0.125 7) sample_inverse_data sample_inverse_data').
  intros st Hst. injection Hst as <-.
  apply (bool_decide_unpack _). by vm_compute.
Defined.

Lemma apply_objective_errors_witness :
  apply sample_get_coeff_offset sample_no_variable = Raise IndexError
  ∧ apply sample_get_coeff_offset sample_not_affine = Raise ExtractionError.
Proof.
  split.
  - by apply (proj1 (apply_objective_errors SampleExpr sample_get_coeff_offset
                       sample_no_variable)).
  - by apply (proj1 (proj2 (proj2 (apply_objective_errors SampleExpr
                                     sample_get_coeff_offset sample_not_affine)))
                (mkVar 0) [] NotAffine []).
Defined.

Lemma apply_partition_witness :
  supported_problem sample_get_coeff_offset sample_problem
  ∧ ∃ data inv_data,
      apply sample_get_coeff_offset sample_problem = Ok (data, inv_data)
      ∧ EQ_CONSTR inv_data ++ NEQ_CONSTR inv_data
        ≡ₚ [sample_exp; sample_soc; sample_leq; sample_eq].
Proof.
  split; [exact sample_problem_supported|].
  destruct (apply_partition SampleExpr sample_get_coeff_offset sample_problem
              sample_problem_supported)
    as (data & inv_data & Happly & Hperm & _).
  by exists data, inv_data.
Defined.

Lemma apply_depends_on_groups_witness :
  apply sample_get_coeff_offset sample_problem_reordered
  = apply sample_get_coeff_offset sample_problem.
Proof.
  apply (apply_depends_on_groups SampleExpr sample_get_coeff_offset
           sample_problem sample_problem_reordered).
  - reflexivity.
  - reflexivity.
  - by repeat constructor.
  - by repeat constructor.
  - intros t Ht. unfold SUPPORTED_CONSTRAINTS in Ht. cbn in Ht.
    rewrite !elem_of_cons, elem_of_nil in Ht.
    destruct Ht as [->|[->|[->|[->|[]]]]]; reflexivity.
Defined.

Lemma apply_invert_primal_witness :
  supported_problem sample_get_coeff_offset sample_problem
  ∧ ∃ data inv_data,
      apply sample_get_coeff_offset sample_problem = Ok (data, inv_data)
      ∧ ∃ sol,
          invert sample_SOLUTION_PRESENT (sample_raw 0 0.25 0.125 7) inv_data
          = Ok sol
          ∧ primal_vars sol !! 0 = Some [0.5%float]
          ∧ primal_vars sol !! 9 = None.
Proof.
  split; [exact sample_problem_supported|].
  destruct (apply_invert_primal SampleExpr sample_get_coeff_offset
              sample_SOLUTION_PRESENT sample_problem sample_problem_supported)
    as (data & inv_data & v & Happly & Hv & Hprimal).
  exists data, inv_data. split; [exact Happly|].
  injection Hv as <-.
  destruct (Hprimal (sample_raw 0 0.25 0.125 7) OPTIMAL eq_refl
              sample_OPTIMAL_present) as (sol & Hsol & Hx & Hother).
  exists sol. split; [exact Hsol|]. split; [exact Hx|]. by apply Hother.
Defined.

Lemma solve_via_data_verbose_option_witness :
  solve_via_data sample_ecos_solve sample_data false true {["verbose" := 1]}
  = Raise TypeError
  ∧ solve_via_data sample_ecos_solve sample_data false true {["max_iters" := 50]}
    = Ok (sample_raw 0 0.25 0.125 50).
Proof.
  split.
  - apply (proj1 (solve_via_data_verbose_option Z sample_ecos_solve sample_data
                    false true {["verbose" := 1]})).
    by eexists.
  - assert (({["max_iters" := 50]} : gmap string Z) !! "verbose" = None)
      as Hnone by reflexivity.
    rewrite (proj2 (solve_via_data_verbose_option Z sample_ecos_solve sample_data
                      false true {["max_iters" := 50]}) Hnone).
    reflexivity.
Defined.
